(** * zcbit: a zero-copy bit vector over a borrowed byte buffer

    Shallow embedding of [bitvec.go] and verification of its contract.

    Machine integers are modelled as [Z] with explicit wrap-around: a
    [uint64] (and Go's [uint] on the 64-bit targets the package's word
    size is written for) is a [Z] in [0, 2^64); [int] is a [Z] in
    [-2^63, 2^63).  The word slice [b.vec] is a [list Z] indexed with
    stdpp's lookup and updated in place with stdpp's insert; methods
    that mutate the receiver return the new vector next to their
    result. *)

From Stdlib Require Import ZArith Lia Bool List.
From Stdlib Require Strings.Byte.
From stdpp Require Import base list.

Local Open Scope Z_scope.

(** ** Machine arithmetic *)

Module Word.

Definition modulus : Z := 2 ^ 64.

(** A value of type [uint64] / [uint]. *)
Definition is_uint64 (x : Z) : Prop := 0 <= x < modulus.

(** Conversion to (or arithmetic result in) an unsigned 64-bit type. *)
Definition to_uint (x : Z) : Z := x mod modulus.

(** Conversion to (or arithmetic result in) the signed type [int]. *)
Definition to_int (x : Z) : Z := (x + 2 ^ 63) mod modulus - 2 ^ 63.

(** [x << s] on [uint64]: bits shifted out at the top are lost. *)
Definition shl (x s : Z) : Z := to_uint (Z.shiftl x s).

(** [x >> s] on [uint64]. *)
Definition shr (x s : Z) : Z := Z.shiftr x s.

(** [^x] on [uint64]. *)
Definition not (x : Z) : Z := Z.lxor x (modulus - 1).

(** [x &^ y] on [uint64]. *)
Definition andnot (x y : Z) : Z := Z.land x (not y).

End Word.

(** ** [math/bits] *)

Module bits.

Fixpoint ctz_pos (p : positive) : Z :=
  match p with
  | xO q => 1 + ctz_pos q
  | _ => 0
  end.

(** [bits.TrailingZeros64]: the number of trailing zero bits of [x];
    64 for [x = 0]. *)
Definition TrailingZeros64 (x : Z) : Z :=
  match x with
  | Zpos p => ctz_pos p
  | _ => 64
  end.

(** [bits.Len64]: the minimum number of bits needed to represent [x];
    0 for [x = 0]. *)
Definition Len64 (x : Z) : Z :=
  if x =? 0 then 0 else Z.log2 x + 1.

(** [bits.LeadingZeros64], defined in the Go library as
    [64 - Len64(x)]. *)
Definition LeadingZeros64 (x : Z) : Z := 64 - Len64 x.

End bits.

(** ** Constants of the package *)

Definition wordBytes : Z := 8.
Definition wordSize : Z := 64.
Definition log2WordSize : Z := 6.
Definition allBits : Z := 0xffffffffffffffff.

Inductive error : Type :=
  | ErrInvalidEndianness
  | ErrInvalidLength
  | ErrUnsupportedArch.

(** ** [swapUint64] *)

Definition swapUint64 (n : Z) : Z :=
  Z.lor (Z.lor (Z.lor (Z.lor (Z.lor (Z.lor (Z.lor
    (Word.shl (Z.land n 0x00000000000000FF) 56)
    (Word.shl (Z.land n 0x000000000000FF00) 40))
    (Word.shl (Z.land n 0x0000000000FF0000) 24))
    (Word.shl (Z.land n 0x00000000FF000000) 8))
    (Word.shr (Z.land n 0x000000FF00000000) 8))
    (Word.shr (Z.land n 0x0000FF0000000000) 24))
    (Word.shr (Z.land n 0x00FF000000000000) 40))
    (Word.shr (Z.land n 0xFF00000000000000) 56).

(** The bit of the argument that ends up at position [k]: byte [k / 8]
    trades places with byte [7 - k / 8]. *)
Definition swapped_bit (k : Z) : Z := 8 * (7 - k / 8) + k mod 8.

(** ** Endianness *)

(** Modelled from the spec: the type [Endianness], its two recognised
    values and the constant [hostEndian] are declared in a file of the
    package other than [bitvec.go].  The spec gives a two-value
    enumeration (Little, Big) over a carrier that also admits
    unrecognised values, which construction must reject; [hostEndian]
    is "supplied as a known constant" and is a parameter of [New]. *)
Inductive Endianness : Type :=
  | LittleEndian
  | BigEndian
  | OtherEndian (tag : Z).

Definition Endianness_eqb (a b : Endianness) : bool :=
  match a, b with
  | LittleEndian, LittleEndian => true
  | BigEndian, BigEndian => true
  | OtherEndian s, OtherEndian t => s =? t
  | _, _ => false
  end.

(** ** The vector *)

Record BitVec : Type := mkBitVec {
  vec : list Z;
  swap : bool
}.

(** [w[idx]] for an [int] index.  Go panics when the index is out of
    range; every use below sits behind a guard on [len(b.vec)]. *)
Definition index (w : list Z) (idx : Z) : Z :=
  match w !! Z.to_nat idx with
  | Some x => x
  | None => 0
  end.

(** [w[idx] = x], in place. *)
Definition store (w : list Z) (idx : Z) (x : Z) : list Z :=
  <[Z.to_nat idx := x]> w.

Definition len (w : list Z) : Z := Z.of_nat (length w).

(** *** Reinterpreting the byte buffer as words

    [New] casts the slice header, so word [k] is whatever the machine
    reads from bytes [8k .. 8k+7]: the first byte is the least
    significant one on a little-endian host and the most significant
    one on a big-endian host.  [New] refuses any other host before the
    cast, so the layout chosen for it below is never observed. *)

Definition byteval (x : Byte.byte) : Z := Z.of_N (Byte.to_N x).

Definition word_of_bytes (b0 b1 b2 b3 b4 b5 b6 b7 : Byte.byte) : Z :=
  Z.lor (Z.lor (Z.lor (Z.lor (Z.lor (Z.lor (Z.lor
    (byteval b0)
    (Z.shiftl (byteval b1) 8))
    (Z.shiftl (byteval b2) 16))
    (Z.shiftl (byteval b3) 24))
    (Z.shiftl (byteval b4) 32))
    (Z.shiftl (byteval b5) 40))
    (Z.shiftl (byteval b6) 48))
    (Z.shiftl (byteval b7) 56).

Fixpoint words_of (host : Endianness) (b : list Byte.byte) : list Z :=
  match b with
  | b0 :: b1 :: b2 :: b3 :: b4 :: b5 :: b6 :: b7 :: rest =>
      match host with
      | BigEndian => word_of_bytes b7 b6 b5 b4 b3 b2 b1 b0
      | _ => word_of_bytes b0 b1 b2 b3 b4 b5 b6 b7
      end :: words_of host rest
  | _ => []
  end.

Inductive result (A : Type) : Type :=
  | Ok (a : A)
  | Err (e : error).
Arguments Ok {A} a.
Arguments Err {A} e.

Definition New (hostEndian : Endianness) (b : list Byte.byte)
    (endian : Endianness) : result BitVec :=
  if negb (Z.of_nat (length b) mod 8 =? 0) then Err ErrInvalidLength
  else if negb (Endianness_eqb endian LittleEndian)
          && negb (Endianness_eqb endian BigEndian)
  then Err ErrInvalidEndianness
  else if negb (Endianness_eqb hostEndian LittleEndian)
          && negb (Endianness_eqb hostEndian BigEndian)
  then Err ErrUnsupportedArch
  else Ok {| vec := words_of hostEndian b;
             swap := negb (Endianness_eqb endian hostEndian) |}.

(** *** Single-bit access *)

Definition Test (b : BitVec) (i : Z) : bool :=
  let idx := Word.shr i log2WordSize in
  if len (vec b) <=? Word.to_int idx then false
  else if swap b then
    let v := swapUint64 (index (vec b) idx) in
    negb (Z.land v (Word.shl 1 (Z.land i (wordSize - 1))) =? 0)
  else
    negb (Z.land (index (vec b) idx)
                 (Word.shl 1 (Z.land i (wordSize - 1))) =? 0).

(** [Set] (the name is reserved in Rocq). *)
Definition Set_ (b : BitVec) (i : Z) : BitVec * bool :=
  let idx := Word.shr i log2WordSize in
  if len (vec b) <=? Word.to_int idx then (b, false)
  else if swap b then
    let v := swapUint64 (index (vec b) idx) in
    let v := Z.lor v (Word.shl 1 (Z.land i (wordSize - 1))) in
    ({| vec := store (vec b) idx (swapUint64 v); swap := swap b |}, true)
  else
    ({| vec := store (vec b) idx
                 (Z.lor (index (vec b) idx)
                        (Word.shl 1 (Z.land i (wordSize - 1))));
        swap := swap b |}, true).

Definition Clear (b : BitVec) (i : Z) : BitVec * bool :=
  let idx := Word.shr i log2WordSize in
  if len (vec b) <=? Word.to_int idx then (b, false)
  else if swap b then
    let v := swapUint64 (index (vec b) idx) in
    let v := Word.andnot v (Word.shl 1 (Z.land i (wordSize - 1))) in
    ({| vec := store (vec b) idx (swapUint64 v); swap := swap b |}, true)
  else
    ({| vec := store (vec b) idx
                 (Word.andnot (index (vec b) idx)
                              (Word.shl 1 (Z.land i (wordSize - 1))));
        swap := swap b |}, true).

(** *** Scans

    The forward loops [for idx++; idx < len(b.vec); idx++] recurse on a
    bound of the number of iterations left and test the loop condition
    as the source does; callers pass [length (vec b)]. *)

Fixpoint FindFirstOne_loop_swap (w : list Z) (fuel : nat) (idx : Z)
    : Z * bool :=
  match fuel with
  | O => (0, false)
  | S fuel' =>
      if idx <? len w then
        if negb (index w idx =? 0) then
          (Word.to_uint (Word.to_uint (Word.to_uint idx * wordSize)
             + Word.to_uint (bits.TrailingZeros64 (swapUint64 (index w idx)))),
           true)
        else FindFirstOne_loop_swap w fuel' (Word.to_int (idx + 1))
      else (0, false)
  end.

Fixpoint FindFirstOne_loop (w : list Z) (fuel : nat) (idx : Z)
    : Z * bool :=
  match fuel with
  | O => (0, false)
  | S fuel' =>
      if idx <? len w then
        if negb (index w idx =? 0) then
          (Word.to_uint (Word.to_uint (Word.to_uint idx * wordSize)
             + Word.to_uint (bits.TrailingZeros64 (index w idx))),
           true)
        else FindFirstOne_loop w fuel' (Word.to_int (idx + 1))
      else (0, false)
  end.

Definition FindFirstOne (b : BitVec) (i : Z) : Z * bool :=
  let idx := Word.to_int (Word.shr i log2WordSize) in
  if len (vec b) <=? idx then (0, false)
  else if swap b then
    let v := swapUint64 (index (vec b) idx) in
    let v := Word.shr v (Z.land i (wordSize - 1)) in
    if negb (v =? 0) then
      (Word.to_uint (i + Word.to_uint (bits.TrailingZeros64 v)), true)
    else
      FindFirstOne_loop_swap (vec b) (length (vec b)) (Word.to_int (idx + 1))
  else
    let v := Word.shr (index (vec b) idx) (Z.land i (wordSize - 1)) in
    if negb (v =? 0) then
      (Word.to_uint (i + Word.to_uint (bits.TrailingZeros64 v)), true)
    else
      FindFirstOne_loop (vec b) (length (vec b)) (Word.to_int (idx + 1)).

Fixpoint FindFirstZero_loop_swap (w : list Z) (fuel : nat) (idx : Z)
    : Z * bool :=
  match fuel with
  | O => (0, false)
  | S fuel' =>
      if idx <? len w then
        if negb (index w idx =? allBits) then
          (Word.to_uint (Word.to_uint (Word.to_uint idx * wordSize)
             + Word.to_uint
                 (bits.TrailingZeros64 (Word.not (swapUint64 (index w idx))))),
           true)
        else FindFirstZero_loop_swap w fuel' (Word.to_int (idx + 1))
      else (0, false)
  end.

Fixpoint FindFirstZero_loop (w : list Z) (fuel : nat) (idx : Z)
    : Z * bool :=
  match fuel with
  | O => (0, false)
  | S fuel' =>
      if idx <? len w then
        if negb (index w idx =? allBits) then
          (Word.to_uint (Word.to_uint (Word.to_uint idx * wordSize)
             + Word.to_uint (bits.TrailingZeros64 (Word.not (index w idx)))),
           true)
        else FindFirstZero_loop w fuel' (Word.to_int (idx + 1))
      else (0, false)
  end.

Definition FindFirstZero (b : BitVec) (i : Z) : Z * bool :=
  let idx := Word.to_int (Word.shr i log2WordSize) in
  if len (vec b) <=? idx then (0, false)
  else if swap b then
    let offset := Z.land i (wordSize - 1) in
    let v := Word.shr (swapUint64 (index (vec b) idx)) offset in
    let trail := Word.to_uint (bits.TrailingZeros64 (Word.not v)) in
    if trail <? Word.to_uint (wordSize - offset) then
      (Word.to_uint (i + trail), true)
    else
      FindFirstZero_loop_swap (vec b) (length (vec b)) (Word.to_int (idx + 1))
  else
    let offset := Z.land i (wordSize - 1) in
    let v := Word.shr (index (vec b) idx) offset in
    let trail := Word.to_uint (bits.TrailingZeros64 (Word.not v)) in
    if trail <? Word.to_uint (wordSize - offset) then
      (Word.to_uint (i + trail), true)
    else
      FindFirstZero_loop (vec b) (length (vec b)) (Word.to_int (idx + 1)).

(** The backward loops [for i := len(b.vec); i > 0; i--] recurse on
    [i] itself. *)

Fixpoint FindLastOne_loop_swap (w : list Z) (i : nat) : Z * bool :=
  match i with
  | O => (0, false)
  | S i' =>
      let v := index w (Z.of_nat i - 1) in
      if negb (v =? 0) then
        let v := swapUint64 v in
        (Word.to_uint
           (Word.to_int
              (Word.to_int (Word.to_int (Z.of_nat i * wordSize)
                            - bits.LeadingZeros64 v) - 1)),
         true)
      else FindLastOne_loop_swap w i'
  end.

Fixpoint FindLastOne_loop (w : list Z) (i : nat) : Z * bool :=
  match i with
  | O => (0, false)
  | S i' =>
      let v := index w (Z.of_nat i - 1) in
      if negb (v =? 0) then
        (Word.to_uint
           (Word.to_int
              (Word.to_int (Word.to_int (Z.of_nat i * wordSize)
                            - bits.LeadingZeros64 v) - 1)),
         true)
      else FindLastOne_loop w i'
  end.

Definition FindLastOne (b : BitVec) : Z * bool :=
  if swap b then FindLastOne_loop_swap (vec b) (length (vec b))
  else FindLastOne_loop (vec b) (length (vec b)).

(** ** Vocabulary of the contract *)

(** The words hold [uint64] values and every bit of the vector has an
    index of type [uint]. *)
Definition wf (b : BitVec) : Prop :=
  Forall Word.is_uint64 (vec b) /\ len (vec b) * wordSize <= Word.modulus.

(** Bit capacity. *)
Definition capacity (b : BitVec) : Z := len (vec b) * wordSize.

(** The word at [idx] as the bit operations see it. *)
Definition logical (b : BitVec) (idx : Z) : Z :=
  if swap b then swapUint64 (index (vec b) idx) else index (vec b) idx.

(** Reversal of every 8-byte group of a buffer. *)
Fixpoint swap_bytes (b : list Byte.byte) : list Byte.byte :=
  match b with
  | b0 :: b1 :: b2 :: b3 :: b4 :: b5 :: b6 :: b7 :: rest =>
      b7 :: b6 :: b5 :: b4 :: b3 :: b2 :: b1 :: b0 :: swap_bytes rest
  | tail => tail
  end.

(** Bit [k] of a word slice read in host order. *)
Definition bit_at (w : list Z) (k : Z) : bool :=
  Z.testbit (index w (k / wordSize)) (k mod wordSize).

(** The same logical vector over a buffer in host byte order. *)
Definition native (b : BitVec) : BitVec :=
  if swap b then {| vec := swapUint64 <$> vec b; swap := false |} else b.

(** What a forward scan for a bit of value [x] starting at bit [start]
    may answer: the first such bit, or none up to the capacity. *)
Definition first_from (x : bool) (w : list Z) (start : Z) (r : Z * bool)
    : Prop :=
  (exists j, r = (j, true) /\ start <= j < len w * 64 /\ bit_at w j = x
             /\ forall k, start <= k < j -> bit_at w k = negb x)
  \/ (r = (0, false)
      /\ forall k, start <= k < len w * 64 -> bit_at w k = negb x).

(** What the backward scan may answer: the last set bit, or none. *)
Definition last_set (w : list Z) (r : Z * bool) : Prop :=
  (exists j, r = (j, true) /\ 0 <= j < len w * 64 /\ bit_at w j = true
             /\ forall k, j < k -> bit_at w k = false)
  \/ (r = (0, false) /\ forall k, 0 <= k -> bit_at w k = false).

(** The methods as requests to one vector, threaded through a sequence
    of calls. *)
Inductive Op : Type :=
  | OpTest (i : Z)
  | OpSet (i : Z)
  | OpClear (i : Z)
  | OpFindFirstOne (i : Z)
  | OpFindFirstZero (i : Z)
  | OpFindLastOne.

Inductive Reply : Type :=
  | RBool (r : bool)
  | RIndex (r : Z * bool).

Definition call (op : Op) (b : BitVec) : BitVec * Reply :=
  match op with
  | OpTest i => (b, RBool (Test b i))
  | OpSet i => let '(b', r) := Set_ b i in (b', RBool r)
  | OpClear i => let '(b', r) := Clear b i in (b', RBool r)
  | OpFindFirstOne i => (b, RIndex (FindFirstOne b i))
  | OpFindFirstZero i => (b, RIndex (FindFirstZero b i))
  | OpFindLastOne => (b, RIndex (FindLastOne b))
  end.

Fixpoint run (ops : list Op) (b : BitVec) : BitVec :=
  match ops with
  | [] => b
  | op :: ops' => run ops' (fst (call op b))
  end.

(** Sample vectors and buffers for concrete instances. *)
Definition sample_swapped : BitVec :=
  {| vec := [3; 0x0100000000000000]; swap := true |}.

Definition sample_native : BitVec :=
  {| vec := [512; 0]; swap := false |}.

Definition sample_full : BitVec :=
  {| vec := [allBits; allBits]; swap := true |}.

Definition zero_buffer (n : nat) : list Byte.byte := repeat Byte.x00 n.

Definition sample_buffer : list Byte.byte :=
  [Byte.x01; Byte.x02; Byte.x03; Byte.x04;
   Byte.x05; Byte.x06; Byte.x07; Byte.x08].

(** Byte [n] of a buffer as a number; 0 past its end. *)
Definition byte_at (b : list Byte.byte) (n : Z) : Z :=
  match b !! Z.to_nat n with
  | Some x => byteval x
  | None => 0
  end.

(** The answers a forward scan for a bit of value [x] may give, in
    terms of [Test]. *)
Definition first_answer (x : bool) (b : BitVec) (from : Z) (r : Z * bool)
    : Prop :=
  (exists m, r = (m, true) /\ from <= m < capacity b /\ Test b m = x
             /\ forall k, from <= k < m -> Test b k = negb x)
  \/ (r = (0, false)
      /\ forall k, from <= k < capacity b -> Test b k = negb x).

(** The answers the backward scan may give, in terms of [Test]. *)
Definition last_answer (b : BitVec) (r : Z * bool) : Prop :=
  (exists m, r = (m, true) /\ 0 <= m < capacity b /\ Test b m = true
             /\ forall k, Word.is_uint64 k -> m < k -> Test b k = false)
  \/ (r = (0, false) /\ forall k, Word.is_uint64 k -> Test b k = false).

(** The vector over the bitwise complement of the buffer. *)
Definition complement (b : BitVec) : BitVec :=
  {| vec := Word.not <$> vec b; swap := swap b |}.

(** * Verification *)

(** ** Bits of machine words *)

Lemma testbit_uint64_high x k :
  Word.is_uint64 x -> 64 <= k -> Z.testbit x k = false.
Proof.
  intros Hx Hk.
  rewrite <- (Z.mod_small x (2 ^ 64)) by exact Hx.
  apply Z.mod_pow2_bits_high. lia.
Qed.

Lemma uint64_of_bits x :
  0 <= x -> (forall k, 64 <= k -> Z.testbit x k = false) -> Word.is_uint64 x.
Proof.
  intros Hx Hhi.
  assert (E : x = x mod 2 ^ 64).
  { apply Z.bits_inj'. intros k Hk.
    destruct (Z.lt_ge_cases k 64) as [Hlt | Hge].
    - now rewrite Z.mod_pow2_bits_low.
    - rewrite Z.mod_pow2_bits_high by lia. now apply Hhi. }
  unfold Word.is_uint64, Word.modulus. rewrite E.
  apply Z.mod_pos_bound. lia.
Qed.

Lemma testbit_to_uint x k :
  Z.testbit (Word.to_uint x) k = (k <? 64) && Z.testbit x k.
Proof.
  unfold Word.to_uint, Word.modulus.
  destruct (Z.ltb_spec k 64) as [Hlt | Hge]; cbn [andb].
  - destruct (Z.lt_ge_cases k 0) as [Hneg | Hpos].
    + now rewrite !Z.testbit_neg_r.
    + now rewrite Z.mod_pow2_bits_low.
  - apply Z.mod_pow2_bits_high. lia.
Qed.

Lemma testbit_byte_mask s k :
  0 <= s ->
  Z.testbit (Z.shiftl 255 s) k = (s <=? k) && (k <? s + 8).
Proof.
  intros Hs.
  change 255 with (Z.ones 8).
  destruct (Z.leb_spec s k) as [Hle | Hgt]; cbn [andb].
  - rewrite Z.shiftl_spec by lia. rewrite Z.testbit_ones_nonneg by lia.
    destruct (Z.ltb_spec (k - s) 8), (Z.ltb_spec k (s + 8)); lia || reflexivity.
  - destruct (Z.lt_ge_cases k 0) as [Hneg | Hpos].
    + apply Z.testbit_neg_r. lia.
    + rewrite Z.shiftl_spec by lia. apply Z.testbit_neg_r. lia.
Qed.

(** Case analysis on every integer comparison of the goal. *)
Ltac split_cmp :=
  repeat match goal with
  | |- context [?a <=? ?b] => destruct (Z.leb_spec a b); try lia
  | |- context [?a <? ?b] => destruct (Z.ltb_spec a b); try lia
  end.

(** The eight lanes of [swapUint64], bit by bit. *)
Ltac swap_lanes :=
  unfold swapUint64, Word.shl, Word.shr;
  change 0x00000000000000FF with (Z.shiftl 255 0);
  change 0x000000000000FF00 with (Z.shiftl 255 8);
  change 0x0000000000FF0000 with (Z.shiftl 255 16);
  change 0x00000000FF000000 with (Z.shiftl 255 24);
  change 0x000000FF00000000 with (Z.shiftl 255 32);
  change 0x0000FF0000000000 with (Z.shiftl 255 40);
  change 0x00FF000000000000 with (Z.shiftl 255 48);
  change 0xFF00000000000000 with (Z.shiftl 255 56).

Lemma testbit_swapUint64 n k :
  0 <= k < 64 -> Z.testbit (swapUint64 n) k = Z.testbit n (swapped_bit k).
Proof.
  intros Hk. swap_lanes. unfold swapped_bit.
  rewrite !Z.lor_spec, !testbit_to_uint, !Z.shiftr_spec by lia.
  rewrite !Z.shiftl_spec by lia.
  rewrite !Z.land_spec, !testbit_byte_mask by lia.
  assert (Hq : 0 <= k / 8 < 8) by (Z.div_mod_to_equations; lia).
  assert (Hr : k mod 8 = k - 8 * (k / 8)) by (Z.div_mod_to_equations; lia).
  rewrite Hr. clear Hr.
  assert (Hr : 0 <= k - 8 * (k / 8) < 8) by (Z.div_mod_to_equations; lia).
  generalize dependent (k / 8). intros q Hq Hr.
  assert (Hc : q = 0 \/ q = 1 \/ q = 2 \/ q = 3 \/
               q = 4 \/ q = 5 \/ q = 6 \/ q = 7) by lia.
  destruct Hc as [-> | [-> | [-> | [-> | [-> | [-> | [-> | ->]]]]]]];
    split_cmp; cbn [andb orb];
    rewrite ?andb_true_r, ?andb_false_r, ?orb_false_r; cbn [andb orb];
    f_equal; lia.
Qed.

Lemma swapUint64_uint64 n : Word.is_uint64 (swapUint64 n).
Proof.
  apply uint64_of_bits.
  - swap_lanes. unfold Word.to_uint, Word.modulus.
    repeat (apply Z.lor_nonneg; split);
      solve [ apply Z.mod_pos_bound; lia
            | apply Z.shiftr_nonneg, Z.land_nonneg; right;
              apply Z.shiftl_nonneg; lia ].
  - intros k Hk. swap_lanes.
    rewrite !Z.lor_spec, !testbit_to_uint, !Z.shiftr_spec by lia.
    rewrite !Z.land_spec, !testbit_byte_mask by lia.
    split_cmp; cbn [andb orb]; rewrite ?andb_false_r; reflexivity.
Qed.

Lemma swapped_bit_range k : 0 <= k < 64 -> 0 <= swapped_bit k < 64.
Proof. unfold swapped_bit. intros. Z.div_mod_to_equations. lia. Qed.

Lemma swapped_bit_involutive k :
  0 <= k < 64 -> swapped_bit (swapped_bit k) = k.
Proof. unfold swapped_bit. intros. Z.div_mod_to_equations. lia. Qed.

Lemma swapUint64_involutive n :
  Word.is_uint64 n -> swapUint64 (swapUint64 n) = n.
Proof.
  intros Hn. apply Z.bits_inj'. intros k Hk.
  destruct (Z.lt_ge_cases k 64) as [Hlt | Hge].
  - rewrite !testbit_swapUint64 by (try apply swapped_bit_range; lia).
    now rewrite swapped_bit_involutive by lia.
  - rewrite !testbit_uint64_high by (try apply swapUint64_uint64; assumption).
    reflexivity.
Qed.

Lemma swapUint64_zero n : Word.is_uint64 n -> (swapUint64 n =? 0) = (n =? 0).
Proof.
  intros Hn. destruct (Z.eqb_spec n 0) as [-> | Hne]; [reflexivity |].
  apply Z.eqb_neq. intros E. apply Hne.
  now rewrite <- (swapUint64_involutive n Hn), E.
Qed.

Lemma swapUint64_allBits n :
  Word.is_uint64 n -> (swapUint64 n =? allBits) = (n =? allBits).
Proof.
  intros Hn. destruct (Z.eqb_spec n allBits) as [-> | Hne]; [reflexivity |].
  apply Z.eqb_neq. intros E. apply Hne.
  now rewrite <- (swapUint64_involutive n Hn), E.
Qed.

(** ** Index arithmetic and single-bit masks *)

Lemma to_int_small x : - 2 ^ 63 <= x < 2 ^ 63 -> Word.to_int x = x.
Proof.
  intros Hx. unfold Word.to_int, Word.modulus.
  rewrite Z.mod_small; lia.
Qed.

Lemma to_uint_small x : Word.is_uint64 x -> Word.to_uint x = x.
Proof. intros Hx. now apply Z.mod_small. Qed.

Lemma word_index i : Word.shr i log2WordSize = i / 64.
Proof. unfold Word.shr, log2WordSize. now rewrite Z.shiftr_div_pow2. Qed.

Lemma bit_offset i : Z.land i (wordSize - 1) = i mod 64.
Proof. change (wordSize - 1) with (Z.ones 6). now rewrite Z.land_ones. Qed.

Lemma word_index_int i :
  Word.is_uint64 i -> Word.to_int (Word.shr i log2WordSize) = i / 64.
Proof.
  intros Hi. rewrite word_index. apply to_int_small.
  unfold Word.is_uint64, Word.modulus in Hi.
  Z.div_mod_to_equations. lia.
Qed.

Lemma bit_offset_range i : 0 <= i mod 64 < 64.
Proof. apply Z.mod_pos_bound. lia. Qed.

Lemma shl_one off : 0 <= off < 64 -> Word.shl 1 off = 2 ^ off.
Proof.
  intros Hoff. unfold Word.shl. rewrite Z.shiftl_1_l.
  apply to_uint_small. unfold Word.is_uint64, Word.modulus.
  split; [apply Z.pow_nonneg; lia | apply Z.pow_lt_mono_r; lia].
Qed.

Lemma land_bit_eqb v off :
  0 <= off -> (Z.land v (2 ^ off) =? 0) = negb (Z.testbit v off).
Proof.
  intros Hoff.
  assert (E : Z.land v (2 ^ off) = if Z.testbit v off then 2 ^ off else 0).
  { apply Z.bits_inj'. intros k Hk.
    rewrite Z.land_spec, Z.pow2_bits_eqb by lia.
    destruct (Z.eqb_spec off k) as [-> | Hne].
    - destruct (Z.testbit v k); cbn [andb];
        [now rewrite Z.pow2_bits_true | now rewrite Z.bits_0].
    - rewrite andb_false_r.
      destruct (Z.testbit v off);
        [now rewrite Z.pow2_bits_false | now rewrite Z.bits_0]. }
  rewrite E. destruct (Z.testbit v off); cbn [negb]; [| reflexivity].
  apply Z.eqb_neq. assert (0 < 2 ^ off) by (apply Z.pow_pos_nonneg; lia). lia.
Qed.

Lemma testbit_not v k :
  Z.testbit (Word.not v) k = xorb (Z.testbit v k) ((0 <=? k) && (k <? 64)).
Proof.
  unfold Word.not, Word.modulus. rewrite Z.lxor_spec. f_equal.
  change (2 ^ 64 - 1) with (Z.ones 64).
  destruct (Z.leb_spec 0 k) as [Hk | Hk]; cbn [andb].
  - now rewrite Z.testbit_ones_nonneg by lia.
  - now rewrite Z.testbit_neg_r.
Qed.

(** ** The slice *)

Lemma index_in_range (w : list Z) idx :
  Forall Word.is_uint64 w -> Word.is_uint64 (index w idx).
Proof.
  intros Hw. unfold index.
  destruct (w !! Z.to_nat idx) as [x |] eqn:E.
  - exact (Forall_lookup_1 _ _ _ _ Hw E).
  - unfold Word.is_uint64, Word.modulus. lia.
Qed.

Lemma index_outside (w : list Z) idx : len w <= idx -> index w idx = 0.
Proof.
  intros H. unfold index, len in *.
  rewrite (proj2 (lookup_ge_None w (Z.to_nat idx))); [reflexivity | lia].
Qed.

Lemma index_store_eq (w : list Z) idx x :
  0 <= idx < len w -> index (store w idx x) idx = x.
Proof.
  intros H. unfold index, store, len in *.
  rewrite list_lookup_insert_eq; [reflexivity | lia].
Qed.

Lemma index_store_ne (w : list Z) idx idx' x :
  0 <= idx -> 0 <= idx' -> idx <> idx' ->
  index (store w idx x) idx' = index w idx'.
Proof.
  intros H H' Hne. unfold index, store.
  rewrite list_lookup_insert_ne; [reflexivity | lia].
Qed.

Lemma len_store (w : list Z) idx x : len (store w idx x) = len w.
Proof. unfold len, store. now rewrite length_insert. Qed.

(** ** [Test], [Set] and [Clear] on the logical words *)

Lemma logical_outside b idx : len (vec b) <= idx -> logical b idx = 0.
Proof.
  intros H. unfold logical. rewrite index_outside by assumption.
  now destruct (swap b).
Qed.

Lemma eqb_split i j :
  (j / 64 =? i / 64) && (j mod 64 =? i mod 64) = (j =? i).
Proof.
  destruct (Z.eqb_spec j i) as [-> | Hne].
  - now rewrite !Z.eqb_refl.
  - destruct (Z.eqb_spec (j / 64) (i / 64)) as [Hq |]; [| reflexivity].
    destruct (Z.eqb_spec (j mod 64) (i mod 64)) as [Hr |]; [| reflexivity].
    exfalso. apply Hne.
    rewrite (Z.div_mod j 64), (Z.div_mod i 64) by lia. congruence.
Qed.

Lemma Test_spec b i :
  Word.is_uint64 i -> Test b i = Z.testbit (logical b (i / 64)) (i mod 64).
Proof.
  intros Hi. pose proof (bit_offset_range i) as Hoff.
  unfold Test. cbv zeta.
  rewrite word_index_int, word_index, bit_offset, shl_one by assumption.
  rewrite !land_bit_eqb, !negb_involutive by lia.
  destruct (Z.leb_spec (len (vec b)) (i / 64)) as [Hout | Hin].
  - now rewrite logical_outside, Z.bits_0.
  - unfold logical. now destruct (swap b).
Qed.

Lemma logical_Set b i idx k :
  Word.is_uint64 i -> i / 64 < len (vec b) -> 0 <= idx -> 0 <= k < 64 ->
  Z.testbit (logical (fst (Set_ b i)) idx) k
  = ((idx =? i / 64) && (k =? i mod 64)) || Z.testbit (logical b idx) k.
Proof.
  intros Hi Hin Hidx Hk. pose proof (bit_offset_range i) as Hoff.
  assert (Hq : 0 <= i / 64).
  { unfold Word.is_uint64 in Hi. Z.div_mod_to_equations. lia. }
  unfold Set_. cbv zeta.
  rewrite word_index_int, word_index, bit_offset, shl_one by assumption.
  destruct (Z.leb_spec (len (vec b)) (i / 64)) as [Hout | _]; [lia |].
  unfold logical.
  destruct (swap b) eqn:Hs; cbn [fst vec swap]; rewrite ?Hs;
    (destruct (Z.eqb_spec idx (i / 64)) as [-> | Hne]; cbn [andb orb];
     [ rewrite index_store_eq by lia | now rewrite index_store_ne by lia ]).
  - rewrite !testbit_swapUint64 by (try apply swapped_bit_range; lia).
    rewrite swapped_bit_involutive, Z.lor_spec, Z.pow2_bits_eqb by lia.
    rewrite testbit_swapUint64 by lia.
    rewrite (Z.eqb_sym k). apply orb_comm.
  - rewrite Z.lor_spec, Z.pow2_bits_eqb by lia.
    rewrite (Z.eqb_sym k). apply orb_comm.
Qed.

Lemma logical_Clear b i idx k :
  Word.is_uint64 i -> i / 64 < len (vec b) -> 0 <= idx -> 0 <= k < 64 ->
  Z.testbit (logical (fst (Clear b i)) idx) k
  = negb ((idx =? i / 64) && (k =? i mod 64)) && Z.testbit (logical b idx) k.
Proof.
  intros Hi Hin Hidx Hk. pose proof (bit_offset_range i) as Hoff.
  assert (Hq : 0 <= i / 64).
  { unfold Word.is_uint64 in Hi. Z.div_mod_to_equations. lia. }
  assert (Hm : forall x, Z.testbit (Word.andnot x (2 ^ (i mod 64))) k
                         = negb (k =? i mod 64) && Z.testbit x k).
  { intros x. unfold Word.andnot.
    rewrite Z.land_spec, testbit_not, Z.pow2_bits_eqb by lia.
    rewrite (Z.eqb_sym k).
    destruct (Z.leb_spec 0 k), (Z.ltb_spec k 64); try lia. cbn [andb].
    rewrite xorb_true_r. apply andb_comm. }
  unfold Clear. cbv zeta.
  rewrite word_index_int, word_index, bit_offset, shl_one by assumption.
  destruct (Z.leb_spec (len (vec b)) (i / 64)) as [Hout | _]; [lia |].
  unfold logical.
  destruct (swap b) eqn:Hs; cbn [fst vec swap]; rewrite ?Hs;
    (destruct (Z.eqb_spec idx (i / 64)) as [-> | Hne]; cbn [andb negb];
     [ rewrite index_store_eq by lia | now rewrite index_store_ne by lia ]).
  - rewrite !testbit_swapUint64 by (try apply swapped_bit_range; lia).
    rewrite swapped_bit_involutive by lia.
    rewrite Hm. now rewrite testbit_swapUint64 by lia.
  - apply Hm.
Qed.

Lemma Set_in_range b i :
  Word.is_uint64 i -> i / 64 < len (vec b) -> snd (Set_ b i) = true.
Proof.
  intros Hi Hin. unfold Set_. cbv zeta. rewrite word_index_int by assumption.
  destruct (Z.leb_spec (len (vec b)) (i / 64)); [lia |].
  now destruct (swap b).
Qed.

Lemma Clear_in_range b i :
  Word.is_uint64 i -> i / 64 < len (vec b) -> snd (Clear b i) = true.
Proof.
  intros Hi Hin. unfold Clear. cbv zeta. rewrite word_index_int by assumption.
  destruct (Z.leb_spec (len (vec b)) (i / 64)); [lia |].
  now destruct (swap b).
Qed.

Lemma Set_shape b i :
  len (vec (fst (Set_ b i))) = len (vec b)
  /\ swap (fst (Set_ b i)) = swap b.
Proof.
  unfold Set_. cbv zeta.
  destruct (len (vec b) <=? _); [now split |].
  destruct (swap b) eqn:Hs; cbn [fst vec swap]; now rewrite len_store.
Qed.

Lemma Clear_shape b i :
  len (vec (fst (Clear b i))) = len (vec b)
  /\ swap (fst (Clear b i)) = swap b.
Proof.
  unfold Clear. cbv zeta.
  destruct (len (vec b) <=? _); [now split |].
  destruct (swap b) eqn:Hs; cbn [fst vec swap]; now rewrite len_store.
Qed.

Lemma in_capacity b i :
  Word.is_uint64 i -> i < capacity b -> 0 <= i / 64 < len (vec b).
Proof.
  unfold capacity, wordSize, Word.is_uint64. intros Hi Hc.
  Z.div_mod_to_equations. lia.
Qed.

Lemma Test_Set b i j :
  Word.is_uint64 i -> Word.is_uint64 j -> i < capacity b ->
  Test (fst (Set_ b i)) j = (j =? i) || Test b j.
Proof.
  intros Hi Hj Hc. destruct (in_capacity b i Hi Hc) as [_ Hin].
  rewrite !Test_spec by assumption.
  rewrite logical_Set, eqb_split; try assumption.
  - reflexivity.
  - unfold Word.is_uint64 in Hj. Z.div_mod_to_equations. lia.
  - apply bit_offset_range.
Qed.

Lemma Test_Clear b i j :
  Word.is_uint64 i -> Word.is_uint64 j -> i < capacity b ->
  Test (fst (Clear b i)) j = negb (j =? i) && Test b j.
Proof.
  intros Hi Hj Hc. destruct (in_capacity b i Hi Hc) as [_ Hin].
  rewrite !Test_spec by assumption.
  rewrite logical_Clear, eqb_split; try assumption.
  - reflexivity.
  - unfold Word.is_uint64 in Hj. Z.div_mod_to_equations. lia.
  - apply bit_offset_range.
Qed.

(** ** Counting zeros *)

Lemma ctz_pos_nonneg p : 0 <= bits.ctz_pos p.
Proof. induction p; cbn [bits.ctz_pos]; lia. Qed.

Lemma ctz_pos_bit p : Z.testbit (Zpos p) (bits.ctz_pos p) = true.
Proof.
  induction p as [q IH | q IH |]; cbn [bits.ctz_pos]; try reflexivity.
  pose proof (ctz_pos_nonneg q).
  change (Zpos q~0) with (2 * Zpos q).
  replace (1 + bits.ctz_pos q) with (Z.succ (bits.ctz_pos q)) by lia.
  now rewrite Z.double_bits_succ.
Qed.

Lemma ctz_pos_low p k :
  0 <= k < bits.ctz_pos p -> Z.testbit (Zpos p) k = false.
Proof.
  revert k. induction p as [q IH | q IH |]; cbn [bits.ctz_pos]; intros k Hk;
    try lia.
  change (Zpos q~0) with (2 * Zpos q).
  destruct (Z.eq_dec k 0) as [-> | Hnz].
  - apply Z.testbit_even_0.
  - replace k with (Z.succ (k - 1)) by lia.
    rewrite Z.double_bits_succ. apply IH. lia.
Qed.

Lemma TrailingZeros64_nonneg x : 0 <= bits.TrailingZeros64 x.
Proof. destruct x; cbn; try lia. apply ctz_pos_nonneg. Qed.

Lemma TrailingZeros64_bit x :
  0 < x -> Z.testbit x (bits.TrailingZeros64 x) = true.
Proof. destruct x; try lia. intros _. apply ctz_pos_bit. Qed.

Lemma TrailingZeros64_low x k :
  0 <= x -> 0 <= k < bits.TrailingZeros64 x -> Z.testbit x k = false.
Proof.
  destruct x; try lia; intros _ Hk.
  - apply Z.bits_0.
  - now apply ctz_pos_low.
Qed.

Lemma TrailingZeros64_le x :
  Word.is_uint64 x -> bits.TrailingZeros64 x <= 64.
Proof.
  intros Hx. destruct (Z.eq_dec x 0) as [-> | Hnz]; [cbn; lia |].
  destruct (Z.le_gt_cases (bits.TrailingZeros64 x) 64) as [| Hgt]; [assumption |].
  assert (Hb : Z.testbit x (bits.TrailingZeros64 x) = true).
  { apply TrailingZeros64_bit. unfold Word.is_uint64 in Hx. lia. }
  rewrite testbit_uint64_high in Hb by (assumption || lia). discriminate.
Qed.

Lemma TrailingZeros64_lt x :
  Word.is_uint64 x -> x <> 0 -> bits.TrailingZeros64 x < 64.
Proof.
  intros Hx Hnz.
  destruct (Z.lt_ge_cases (bits.TrailingZeros64 x) 64) as [| Hge]; [assumption |].
  assert (Hb : Z.testbit x (bits.TrailingZeros64 x) = true).
  { apply TrailingZeros64_bit. unfold Word.is_uint64 in Hx. lia. }
  rewrite testbit_uint64_high in Hb by (assumption || lia). discriminate.
Qed.

Lemma LeadingZeros64_log2 x :
  0 < x -> 63 - bits.LeadingZeros64 x = Z.log2 x.
Proof.
  intros Hx. unfold bits.LeadingZeros64, bits.Len64.
  destruct (Z.eqb_spec x 0); lia.
Qed.

Lemma log2_uint64 x : Word.is_uint64 x -> 0 < x -> 0 <= Z.log2 x < 64.
Proof.
  intros Hx Hpos. split; [apply Z.log2_nonneg |].
  apply Z.log2_lt_pow2; [assumption | apply Hx].
Qed.

(** ** Bits of a slice *)

Lemma bit_at_word w q r :
  0 <= r < 64 -> bit_at w (q * 64 + r) = Z.testbit (index w q) r.
Proof.
  intros Hr. unfold bit_at, wordSize.
  replace ((q * 64 + r) / 64) with q by (Z.div_mod_to_equations; lia).
  replace ((q * 64 + r) mod 64) with r by (Z.div_mod_to_equations; lia).
  reflexivity.
Qed.

Lemma bit_at_in_word w q k :
  q * 64 <= k < q * 64 + 64 ->
  bit_at w k = Z.testbit (index w q) (k - q * 64).
Proof.
  intros Hk. rewrite <- (bit_at_word w q (k - q * 64)) by lia.
  f_equal. lia.
Qed.

Lemma bit_at_outside w k : len w * 64 <= k -> bit_at w k = false.
Proof.
  intros Hk. unfold bit_at, wordSize.
  rewrite index_outside; [apply Z.bits_0 |].
  Z.div_mod_to_equations. lia.
Qed.

Lemma bit_at_zero_word w q k :
  index w q = 0 -> q * 64 <= k < q * 64 + 64 -> bit_at w k = false.
Proof.
  intros Hz Hk. rewrite (bit_at_in_word w q) by assumption.
  rewrite Hz. apply Z.bits_0.
Qed.

(** ** [FindFirstOne] *)

Ltac word_lia :=
  unfold capacity, Word.is_uint64, Word.modulus, wordSize in *; lia.

Lemma word_position w idx t :
  len w * wordSize <= Word.modulus -> 0 <= idx < len w -> 0 <= t < 64 ->
  Word.to_uint (Word.to_uint (Word.to_uint idx * wordSize) + Word.to_uint t)
  = idx * 64 + t.
Proof.
  intros Hcap Hidx Ht.
  rewrite (to_uint_small idx), (to_uint_small t) by word_lia.
  rewrite (to_uint_small (idx * wordSize)) by word_lia.
  rewrite to_uint_small by word_lia. unfold wordSize. lia.
Qed.

Lemma next_index w idx :
  len w * wordSize <= Word.modulus -> 0 <= idx < len w ->
  Word.to_int (idx + 1) = idx + 1.
Proof. intros Hcap Hidx. apply to_int_small. word_lia. Qed.

Lemma FindFirstOne_loop_post w :
  Forall Word.is_uint64 w -> len w * wordSize <= Word.modulus ->
  forall fuel idx, 0 <= idx -> len w - idx <= Z.of_nat fuel ->
  first_from true w (idx * 64) (FindFirstOne_loop w fuel idx).
Proof.
  intros Hw Hcap. induction fuel as [| fuel IH]; intros idx Hidx Hfuel.
  - right. split; [reflexivity |]. intros k Hk. lia.
  - cbn [FindFirstOne_loop].
    destruct (Z.ltb_spec idx (len w)) as [Hin | Hout].
    2:{ right. split; [reflexivity |]. intros k Hk. lia. }
    pose proof (index_in_range w idx Hw) as Hx.
    destruct (Z.eqb_spec (index w idx) 0) as [Hz | Hnz]; cbn [negb].
    + rewrite (next_index w) by (assumption || lia).
      destruct (IH (idx + 1)) as [(j & Hr & Hj & Hbit & Hmin) | (Hr & Hnone)];
        try lia.
      * left. exists j. repeat split; try assumption; try lia.
        intros k Hk. destruct (Z.lt_ge_cases k ((idx + 1) * 64)).
        -- apply (bit_at_zero_word w idx); [assumption | lia].
        -- apply Hmin. lia.
      * right. split; [assumption |]. intros k Hk.
        destruct (Z.lt_ge_cases k ((idx + 1) * 64)).
        -- apply (bit_at_zero_word w idx); [assumption | lia].
        -- apply Hnone. lia.
    + pose proof (TrailingZeros64_nonneg (index w idx)) as Ht0.
      pose proof (TrailingZeros64_lt _ Hx Hnz) as Ht.
      left. exists (idx * 64 + bits.TrailingZeros64 (index w idx)).
      rewrite (word_position w) by (assumption || lia).
      split; [reflexivity |]. split; [lia |]. split.
      * rewrite bit_at_word by lia. apply TrailingZeros64_bit. word_lia.
      * intros k Hk. rewrite (bit_at_in_word w idx) by lia.
        apply TrailingZeros64_low; [apply Hx | lia].
Qed.

Lemma shr_uint64 x off :
  Word.is_uint64 x -> 0 <= off -> Word.is_uint64 (Word.shr x off).
Proof.
  intros Hx Hoff. unfold Word.shr. apply uint64_of_bits.
  - apply Z.shiftr_nonneg, Hx.
  - intros k Hk. rewrite Z.shiftr_spec by lia.
    apply testbit_uint64_high; [assumption | lia].
Qed.

Lemma shr_zero_bits x off k :
  Word.shr x off = 0 -> 0 <= off <= k -> Z.testbit x k = false.
Proof.
  intros Hz Hk. replace k with (k - off + off) by lia.
  unfold Word.shr in Hz.
  rewrite <- Z.shiftr_spec, Hz by lia. apply Z.bits_0.
Qed.

Lemma FindFirstOne_native_post w i :
  Forall Word.is_uint64 w -> len w * wordSize <= Word.modulus ->
  Word.is_uint64 i ->
  first_from true w i (FindFirstOne {| vec := w; swap := false |} i).
Proof.
  intros Hw Hcap Hi. pose proof (bit_offset_range i) as Hoff.
  assert (Hdm : i = i / 64 * 64 + i mod 64 /\ 0 <= i / 64).
  { unfold Word.is_uint64 in Hi. Z.div_mod_to_equations. lia. }
  destruct Hdm as [Hdm Hq].
  unfold FindFirstOne. cbv zeta. cbn [vec swap].
  rewrite word_index_int, bit_offset by assumption.
  destruct (Z.leb_spec (len w) (i / 64)) as [Hout | Hin].
  { right. split; [reflexivity |]. intros k Hk. lia. }
  set (q := i / 64) in *. set (off := i mod 64) in *.
  pose proof (index_in_range w q Hw) as Hx.
  pose proof (shr_uint64 _ off Hx (proj1 Hoff)) as Hv.
  destruct (Z.eqb_spec (Word.shr (index w q) off) 0) as [Hz | Hnz];
    cbn [negb].
  - rewrite (next_index w) by (assumption || lia).
    assert (Hrest : forall k, i <= k < (q + 1) * 64 -> bit_at w k = false).
    { intros k Hk. rewrite (bit_at_in_word w q) by lia.
      apply (shr_zero_bits _ off); [assumption | lia]. }
    destruct (FindFirstOne_loop_post w Hw Hcap (length w) (q + 1))
      as [(j & Hr & Hj & Hbit & Hmin) | (Hr & Hnone)]; try (unfold len; lia).
    + left. exists j. repeat split; try assumption; try lia.
      intros k Hk. destruct (Z.lt_ge_cases k ((q + 1) * 64)).
      * apply Hrest. lia.
      * apply Hmin. lia.
    + right. split; [assumption |]. intros k Hk.
      destruct (Z.lt_ge_cases k ((q + 1) * 64)).
      * apply Hrest. lia.
      * apply Hnone. lia.
  - set (t := bits.TrailingZeros64 (Word.shr (index w q) off)).
    assert (Ht0 : 0 <= t) by apply TrailingZeros64_nonneg.
    assert (Hbit : Z.testbit (index w q) (t + off) = true).
    { unfold Word.shr in *. rewrite <- Z.shiftr_spec by lia.
      apply TrailingZeros64_bit. word_lia. }
    assert (Ht : t + off < 64).
    { destruct (Z.lt_ge_cases (t + off) 64) as [| Hge]; [assumption |].
      rewrite testbit_uint64_high in Hbit by (assumption || lia).
      discriminate. }
    left. exists (i + t).
    rewrite (to_uint_small t), to_uint_small by word_lia.
    split; [reflexivity |]. split; [lia |]. split.
    + rewrite (bit_at_in_word w q) by lia.
      now replace (i + t - q * 64) with (t + off) by lia.
    + intros k Hk. rewrite (bit_at_in_word w q) by lia.
      replace (k - q * 64) with (k - i + off) by lia.
      unfold Word.shr in *. rewrite <- Z.shiftr_spec by lia.
      apply TrailingZeros64_low; [apply Hv | fold t; lia].
Qed.

(** ** [FindFirstZero] *)

Lemma testbit_not_low v k :
  0 <= k < 64 -> Z.testbit (Word.not v) k = negb (Z.testbit v k).
Proof.
  intros Hk. rewrite testbit_not.
  destruct (Z.leb_spec 0 k), (Z.ltb_spec k 64); try lia.
  apply xorb_true_r.
Qed.

Lemma not_uint64 x : Word.is_uint64 x -> Word.is_uint64 (Word.not x).
Proof.
  intros Hx. apply uint64_of_bits.
  - unfold Word.not, Word.modulus. apply Z.lxor_nonneg.
    split; intros _; [lia | apply Hx].
  - intros k Hk. rewrite testbit_not, testbit_uint64_high by assumption.
    destruct (Z.leb_spec 0 k), (Z.ltb_spec k 64); try lia. reflexivity.
Qed.

Lemma not_involutive x : Word.not (Word.not x) = x.
Proof.
  unfold Word.not. now rewrite Z.lxor_assoc, Z.lxor_nilpotent, Z.lxor_0_r.
Qed.

Lemma not_zero x : (Word.not x =? 0) = (x =? allBits).
Proof.
  destruct (Z.eqb_spec x allBits) as [-> | Hne]; [reflexivity |].
  apply Z.eqb_neq. intros E. apply Hne.
  now rewrite <- (not_involutive x), E.
Qed.

Lemma bit_at_full_word w q k :
  index w q = allBits -> q * 64 <= k < q * 64 + 64 -> bit_at w k = true.
Proof.
  intros Hz Hk. rewrite (bit_at_in_word w q) by assumption.
  rewrite Hz. change allBits with (Z.ones 64).
  rewrite Z.testbit_ones_nonneg by lia.
  destruct (Z.ltb_spec (k - q * 64) 64); [reflexivity | lia].
Qed.

Lemma FindFirstZero_loop_post w :
  Forall Word.is_uint64 w -> len w * wordSize <= Word.modulus ->
  forall fuel idx, 0 <= idx -> len w - idx <= Z.of_nat fuel ->
  first_from false w (idx * 64) (FindFirstZero_loop w fuel idx).
Proof.
  intros Hw Hcap. induction fuel as [| fuel IH]; intros idx Hidx Hfuel.
  - right. split; [reflexivity |]. intros k Hk. lia.
  - cbn [FindFirstZero_loop].
    destruct (Z.ltb_spec idx (len w)) as [Hin | Hout].
    2:{ right. split; [reflexivity |]. intros k Hk. lia. }
    pose proof (index_in_range w idx Hw) as Hx.
    destruct (Z.eqb_spec (index w idx) allBits) as [Hz | Hnz]; cbn [negb].
    + rewrite (next_index w) by (assumption || lia).
      destruct (IH (idx + 1)) as [(j & Hr & Hj & Hbit & Hmin) | (Hr & Hnone)];
        try lia.
      * left. exists j. repeat split; try assumption; try lia.
        intros k Hk. destruct (Z.lt_ge_cases k ((idx + 1) * 64)).
        -- apply (bit_at_full_word w idx); [assumption | lia].
        -- apply Hmin. lia.
      * right. split; [assumption |]. intros k Hk.
        destruct (Z.lt_ge_cases k ((idx + 1) * 64)).
        -- apply (bit_at_full_word w idx); [assumption | lia].
        -- apply Hnone. lia.
    + pose proof (not_uint64 _ Hx) as Hnx.
      assert (Hnnz : Word.not (index w idx) <> 0).
      { apply Z.eqb_neq. rewrite not_zero. now apply Z.eqb_neq. }
      pose proof (TrailingZeros64_nonneg (Word.not (index w idx))) as Ht0.
      pose proof (TrailingZeros64_lt _ Hnx Hnnz) as Ht.
      left. exists (idx * 64 + bits.TrailingZeros64 (Word.not (index w idx))).
      rewrite (word_position w) by (assumption || lia).
      split; [reflexivity |]. split; [lia |]. split.
      * rewrite bit_at_word by lia. apply negb_true_iff.
        rewrite <- testbit_not_low by lia.
        apply TrailingZeros64_bit. word_lia.
      * intros k Hk. rewrite (bit_at_in_word w idx) by lia.
        apply negb_false_iff. rewrite <- testbit_not_low by lia.
        apply TrailingZeros64_low; [apply Hnx | lia].
Qed.

Lemma FindFirstZero_native_post w i :
  Forall Word.is_uint64 w -> len w * wordSize <= Word.modulus ->
  Word.is_uint64 i ->
  first_from false w i (FindFirstZero {| vec := w; swap := false |} i).
Proof.
  intros Hw Hcap Hi. pose proof (bit_offset_range i) as Hoff.
  assert (Hdm : i = i / 64 * 64 + i mod 64 /\ 0 <= i / 64).
  { unfold Word.is_uint64 in Hi. Z.div_mod_to_equations. lia. }
  destruct Hdm as [Hdm Hq].
  unfold FindFirstZero. cbv zeta. cbn [vec swap].
  rewrite word_index_int, bit_offset by assumption.
  destruct (Z.leb_spec (len w) (i / 64)) as [Hout | Hin].
  { right. split; [reflexivity |]. intros k Hk. lia. }
  set (q := i / 64) in *. set (off := i mod 64) in *.
  pose proof (index_in_range w q Hw) as Hx.
  pose proof (shr_uint64 _ off Hx (proj1 Hoff)) as Hv.
  pose proof (not_uint64 _ Hv) as Hnv.
  set (nv := Word.not (Word.shr (index w q) off)) in *.
  set (t := bits.TrailingZeros64 nv).
  assert (Ht0 : 0 <= t) by apply TrailingZeros64_nonneg.
  assert (Ht64 : t <= 64) by now apply TrailingZeros64_le.
  assert (Hshift : forall d, 0 <= d < 64 ->
            Z.testbit (index w q) (d + off) = negb (Z.testbit nv d)).
  { intros d Hd. unfold nv. rewrite testbit_not_low, negb_involutive by lia.
    unfold Word.shr. now rewrite Z.shiftr_spec by lia. }
  rewrite (to_uint_small t), (to_uint_small (wordSize - off)) by word_lia.
  destruct (Z.ltb_spec t (wordSize - off)) as [Hlt | Hge]; unfold wordSize in *.
  - assert (Hnz : nv <> 0).
    { intros E. unfold t in Hlt. rewrite E in Hlt. cbn in Hlt. lia. }
    left. exists (i + t). rewrite to_uint_small by word_lia.
    split; [reflexivity |]. split; [lia |]. split.
    + rewrite (bit_at_in_word w q) by lia.
      replace (i + t - q * 64) with (t + off) by lia.
      rewrite Hshift by lia. apply negb_false_iff.
      apply TrailingZeros64_bit. word_lia.
    + intros k Hk. rewrite (bit_at_in_word w q) by lia.
      replace (k - q * 64) with (k - i + off) by lia.
      rewrite Hshift by lia. apply negb_true_iff.
      apply TrailingZeros64_low; [apply Hnv | fold t; lia].
  - rewrite (next_index w) by (assumption || lia).
    assert (Hrest : forall k, i <= k < (q + 1) * 64 -> bit_at w k = true).
    { intros k Hk. rewrite (bit_at_in_word w q) by lia.
      replace (k - q * 64) with (k - i + off) by lia.
      rewrite Hshift by lia. apply negb_true_iff.
      apply TrailingZeros64_low; [apply Hnv | fold t; lia]. }
    destruct (FindFirstZero_loop_post w Hw Hcap (length w) (q + 1))
      as [(j & Hr & Hj & Hbit & Hmin) | (Hr & Hnone)]; try (unfold len; lia).
    + left. exists j. repeat split; try assumption; try lia.
      intros k Hk. destruct (Z.lt_ge_cases k ((q + 1) * 64)).
      * apply Hrest. lia.
      * apply Hmin. lia.
    + right. split; [assumption |]. intros k Hk.
      destruct (Z.lt_ge_cases k ((q + 1) * 64)).
      * apply Hrest. lia.
      * apply Hnone. lia.
Qed.

(** ** [FindLastOne] *)

Lemma int_chain a b c :
  Word.to_uint (Word.to_int (Word.to_int (Word.to_int a - b) - c))
  = Word.to_uint (a - b - c).
Proof.
  unfold Word.to_uint, Word.to_int, Word.modulus.
  Z.div_mod_to_equations. lia.
Qed.

Lemma FindLastOne_loop_word w :
  Forall Word.is_uint64 w -> len w * wordSize <= Word.modulus ->
  forall i : nat, Z.of_nat i <= len w ->
  (exists q, 0 <= q < Z.of_nat i /\ index w q <> 0
     /\ (forall q', q < q' < Z.of_nat i -> index w q' = 0)
     /\ FindLastOne_loop w i
        = (q * 64 + (63 - bits.LeadingZeros64 (index w q)), true))
  \/ ((forall q', 0 <= q' < Z.of_nat i -> index w q' = 0)
      /\ FindLastOne_loop w i = (0, false)).
Proof.
  intros Hw Hcap. induction i as [| i IH]; intros Hi.
  - right. split; [intros q' Hq'; lia | reflexivity].
  - cbn [FindLastOne_loop]. cbv zeta.
    replace (Z.of_nat (S i) - 1) with (Z.of_nat i) by lia.
    pose proof (index_in_range w (Z.of_nat i) Hw) as Hx.
    destruct (Z.eqb_spec (index w (Z.of_nat i)) 0) as [Hz | Hnz]; cbn [negb].
    + destruct IH as [(q & Hq & Hqnz & Hzero & Hr) | (Hzero & Hr)]; [lia | |].
      * left. exists q. repeat split; try assumption; try lia.
        intros q' Hq'. destruct (Z.eq_dec q' (Z.of_nat i)) as [-> |];
          [assumption | apply Hzero; lia].
      * right. split; [| assumption].
        intros q' Hq'. destruct (Z.eq_dec q' (Z.of_nat i)) as [-> |];
          [assumption | apply Hzero; lia].
    + left. exists (Z.of_nat i). repeat split; try assumption; try lia.
      rewrite int_chain.
      assert (Hpos : 0 < index w (Z.of_nat i)) by word_lia.
      pose proof (LeadingZeros64_log2 _ Hpos) as Hlz.
      pose proof (log2_uint64 _ Hx Hpos) as Hlog.
      rewrite to_uint_small by word_lia.
      f_equal. unfold wordSize. lia.
Qed.

Lemma FindLastOne_native_post w :
  Forall Word.is_uint64 w -> len w * wordSize <= Word.modulus ->
  last_set w (FindLastOne_loop w (length w)).
Proof.
  intros Hw Hcap.
  destruct (FindLastOne_loop_word w Hw Hcap (length w))
    as [(q & Hq & Hqnz & Hzero & Hr) | (Hzero & Hr)]; [unfold len; lia | |].
  - pose proof (index_in_range w q Hw) as Hx.
    assert (Hpos : 0 < index w q) by word_lia.
    pose proof (LeadingZeros64_log2 _ Hpos) as Hlz.
    pose proof (log2_uint64 _ Hx Hpos) as Hlog.
    left. exists (q * 64 + Z.log2 (index w q)).
    rewrite Hr, Hlz. split; [reflexivity |].
    split; [unfold len; lia |]. split.
    + rewrite bit_at_word by lia. apply Z.bit_log2. lia.
    + intros k Hk.
      destruct (Z.lt_ge_cases k (q * 64 + 64)) as [Hsame | Hlater].
      * rewrite (bit_at_in_word w q) by lia.
        apply Z.bits_above_log2; lia.
      * destruct (Z.lt_ge_cases k (len w * 64)) as [Hin | Hout];
          [| now apply bit_at_outside].
        apply (bit_at_zero_word w (k / 64)).
        -- apply Hzero. unfold len in *. Z.div_mod_to_equations. lia.
        -- Z.div_mod_to_equations. lia.
  - right. split; [assumption |]. intros k Hk.
    destruct (Z.lt_ge_cases k (len w * 64)) as [Hin | Hout];
      [| now apply bit_at_outside].
    apply (bit_at_zero_word w (k / 64)).
    + apply Hzero. unfold len in *. Z.div_mod_to_equations. lia.
    + Z.div_mod_to_equations. lia.
Qed.

(** ** The swapped paths are the native paths over the swapped buffer *)

Lemma index_fmap_swap (w : list Z) idx :
  index (swapUint64 <$> w) idx = swapUint64 (index w idx).
Proof.
  unfold index. rewrite list_lookup_fmap.
  now destruct (w !! Z.to_nat idx).
Qed.

Lemma len_fmap_swap (w : list Z) : len (swapUint64 <$> w) = len w.
Proof. unfold len. now rewrite length_fmap. Qed.

Lemma native_eta b : native b = {| vec := vec (native b); swap := false |}.
Proof. unfold native. destruct b as [w []]; reflexivity. Qed.

Lemma len_native b : len (vec (native b)) = len (vec b).
Proof.
  unfold native. destruct (swap b); [apply len_fmap_swap | reflexivity].
Qed.

Lemma logical_native b idx : index (vec (native b)) idx = logical b idx.
Proof.
  unfold native, logical.
  destruct (swap b); [apply index_fmap_swap | reflexivity].
Qed.

Lemma wf_native b : wf b -> wf {| vec := vec (native b); swap := false |}.
Proof.
  intros [Hw Hcap]. split; cbn [vec].
  - unfold native. destruct (swap b); [| assumption].
    apply Forall_fmap, Forall_true. intros x. apply swapUint64_uint64.
  - now rewrite len_native.
Qed.

Lemma Test_native b i :
  Word.is_uint64 i -> Test b i = bit_at (vec (native b)) i.
Proof.
  intros Hi. rewrite Test_spec by assumption.
  unfold bit_at, wordSize. now rewrite logical_native.
Qed.

Lemma FindFirstOne_loop_native w fuel idx :
  Forall Word.is_uint64 w ->
  FindFirstOne_loop_swap w fuel idx
  = FindFirstOne_loop (swapUint64 <$> w) fuel idx.
Proof.
  intros Hw. revert idx. induction fuel as [| fuel IH]; intros idx;
    [reflexivity |].
  cbn [FindFirstOne_loop_swap FindFirstOne_loop].
  rewrite len_fmap_swap, index_fmap_swap, IH.
  now rewrite swapUint64_zero by now apply index_in_range.
Qed.

Lemma FindFirstZero_loop_native w fuel idx :
  Forall Word.is_uint64 w ->
  FindFirstZero_loop_swap w fuel idx
  = FindFirstZero_loop (swapUint64 <$> w) fuel idx.
Proof.
  intros Hw. revert idx. induction fuel as [| fuel IH]; intros idx;
    [reflexivity |].
  cbn [FindFirstZero_loop_swap FindFirstZero_loop].
  rewrite len_fmap_swap, index_fmap_swap, IH.
  now rewrite swapUint64_allBits by now apply index_in_range.
Qed.

Lemma FindLastOne_loop_native w i :
  Forall Word.is_uint64 w ->
  FindLastOne_loop_swap w i = FindLastOne_loop (swapUint64 <$> w) i.
Proof.
  intros Hw. induction i as [| i IH]; [reflexivity |].
  cbn [FindLastOne_loop_swap FindLastOne_loop]. cbv zeta.
  rewrite index_fmap_swap, IH.
  now rewrite swapUint64_zero by now apply index_in_range.
Qed.

Lemma FindFirstOne_native b i :
  wf b -> FindFirstOne b i = FindFirstOne (native b) i.
Proof.
  intros [Hw _]. unfold native. destruct b as [w [|]]; [| reflexivity].
  cbn [vec swap] in *. unfold FindFirstOne. cbv zeta. cbn [vec swap].
  rewrite len_fmap_swap, index_fmap_swap, length_fmap.
  now rewrite FindFirstOne_loop_native.
Qed.

Lemma FindFirstZero_native b i :
  wf b -> FindFirstZero b i = FindFirstZero (native b) i.
Proof.
  intros [Hw _]. unfold native. destruct b as [w [|]]; [| reflexivity].
  cbn [vec swap] in *. unfold FindFirstZero. cbv zeta. cbn [vec swap].
  rewrite len_fmap_swap, index_fmap_swap, length_fmap.
  now rewrite FindFirstZero_loop_native.
Qed.

Lemma FindLastOne_native b :
  wf b -> FindLastOne b = FindLastOne (native b).
Proof.
  intros [Hw _]. unfold native. destruct b as [w [|]]; [| reflexivity].
  cbn [vec swap] in *. unfold FindLastOne. cbn [vec swap].
  now rewrite length_fmap, FindLastOne_loop_native.
Qed.

(** The three scans against [Test]. *)

Lemma FindFirstOne_post b i :
  wf b -> Word.is_uint64 i ->
  first_from true (vec (native b)) i (FindFirstOne b i).
Proof.
  intros Hwf Hi. rewrite FindFirstOne_native, native_eta by assumption.
  destruct (wf_native b Hwf) as [Hw Hcap].
  now apply FindFirstOne_native_post.
Qed.

Lemma FindFirstZero_post b i :
  wf b -> Word.is_uint64 i ->
  first_from false (vec (native b)) i (FindFirstZero b i).
Proof.
  intros Hwf Hi. rewrite FindFirstZero_native, native_eta by assumption.
  destruct (wf_native b Hwf) as [Hw Hcap].
  now apply FindFirstZero_native_post.
Qed.

Lemma FindLastOne_post b :
  wf b -> last_set (vec (native b)) (FindLastOne b).
Proof.
  intros Hwf. rewrite FindLastOne_native, native_eta by assumption.
  destruct (wf_native b Hwf) as [Hw Hcap].
  unfold FindLastOne. cbn [vec swap].
  now apply FindLastOne_native_post.
Qed.

(** ** Construction *)

Lemma byteval_range a : 0 <= byteval a < 2 ^ 8.
Proof.
  unfold byteval. pose proof (Byte.to_N_bounded a) as H.
  change (2 ^ 8) with 256. lia.
Qed.

Lemma testbit_byteval_high a k : 8 <= k -> Z.testbit (byteval a) k = false.
Proof.
  intros Hk. pose proof (byteval_range a) as Ha.
  rewrite <- (Z.mod_small (byteval a) (2 ^ 8)) by assumption.
  apply Z.mod_pow2_bits_high. lia.
Qed.

(** Drop the lanes of [word_of_bytes] that cannot hold bit [k]. *)
Ltac drop_lanes :=
  repeat match goal with
  | |- context [Z.testbit (byteval ?a) ?e] =>
      first [ rewrite (Z.testbit_neg_r (byteval a) e) by lia
            | rewrite (testbit_byteval_high a e) by lia ]
  end.

Lemma word_of_bytes_uint64 a0 a1 a2 a3 a4 a5 a6 a7 :
  Word.is_uint64 (word_of_bytes a0 a1 a2 a3 a4 a5 a6 a7).
Proof.
  apply uint64_of_bits; unfold word_of_bytes.
  - repeat (apply Z.lor_nonneg; split);
      try (apply Z.shiftl_nonneg); apply byteval_range.
  - intros k Hk. rewrite !Z.lor_spec, !Z.shiftl_spec by lia.
    drop_lanes. reflexivity.
Qed.

Lemma swapUint64_word_of_bytes a0 a1 a2 a3 a4 a5 a6 a7 :
  swapUint64 (word_of_bytes a0 a1 a2 a3 a4 a5 a6 a7)
  = word_of_bytes a7 a6 a5 a4 a3 a2 a1 a0.
Proof.
  apply Z.bits_inj'. intros k Hk.
  destruct (Z.lt_ge_cases k 64) as [Hlt | Hge].
  2:{ rewrite !testbit_uint64_high;
        try reflexivity; try lia;
        [apply word_of_bytes_uint64 | apply swapUint64_uint64]. }
  rewrite testbit_swapUint64 by lia. unfold swapped_bit, word_of_bytes.
  assert (Hr : k mod 8 = k - 8 * (k / 8)) by (Z.div_mod_to_equations; lia).
  rewrite Hr. clear Hr.
  assert (Hr : 0 <= k - 8 * (k / 8) < 8) by (Z.div_mod_to_equations; lia).
  assert (Hq : 0 <= k / 8 < 8) by (Z.div_mod_to_equations; lia).
  generalize dependent (k / 8). intros q Hr Hq.
  rewrite !Z.lor_spec, !Z.shiftl_spec by lia.
  assert (Hc : q = 0 \/ q = 1 \/ q = 2 \/ q = 3 \/
               q = 4 \/ q = 5 \/ q = 6 \/ q = 7) by lia.
  destruct Hc as [-> | [-> | [-> | [-> | [-> | [-> | [-> | ->]]]]]]];
    drop_lanes; cbn [orb]; rewrite ?orb_false_r; f_equal; lia.
Qed.

Lemma words_of_uint64 host b : Forall Word.is_uint64 (words_of host b).
Proof.
  assert (H : forall n b, (length b <= n)%nat ->
                          Forall Word.is_uint64 (words_of host b)).
  { clear b. induction n as [| n IH]; intros b Hb.
    - destruct b; [constructor | cbn in Hb; lia].
    - do 8 (destruct b as [| ? b]; [constructor |]).
      cbn [words_of]. constructor.
      + destruct host; apply word_of_bytes_uint64.
      + apply IH. cbn [length] in Hb. lia. }
  now apply (H (length b)).
Qed.

Lemma len_words_of host b :
  len (words_of host b) = Z.of_nat (length b) / 8.
Proof.
  assert (H : forall n b, (length b <= n)%nat ->
                          len (words_of host b) = Z.of_nat (length b) / 8).
  { clear b. unfold len. induction n as [| n IH]; intros b Hb.
    - destruct b; [reflexivity | cbn in Hb; lia].
    - do 8 (destruct b as [| ? b];
            [cbn [words_of length]; Z.div_mod_to_equations; lia |]).
      cbn [words_of length]. cbn [length] in Hb.
      specialize (IH b ltac:(lia)).
      Z.div_mod_to_equations. lia. }
  now apply (H (length b)).
Qed.

Lemma length_swap_bytes b : length (swap_bytes b) = length b.
Proof.
  assert (H : forall n b, (length b <= n)%nat ->
                          length (swap_bytes b) = length b).
  { clear b. induction n as [| n IH]; intros b Hb.
    - destruct b; [reflexivity | cbn in Hb; lia].
    - do 8 (destruct b as [| ? b]; [reflexivity |]).
      cbn [swap_bytes length]. cbn [length] in Hb.
      rewrite IH by lia. reflexivity. }
  now apply (H (length b)).
Qed.

Lemma words_of_swap_bytes host b :
  words_of host (swap_bytes b) = swapUint64 <$> words_of host b.
Proof.
  assert (H : forall n b, (length b <= n)%nat ->
            words_of host (swap_bytes b) = swapUint64 <$> words_of host b).
  { clear b. induction n as [| n IH]; intros b Hb.
    - destruct b; [reflexivity | cbn in Hb; lia].
    - do 8 (destruct b as [| ? b]; [reflexivity |]).
      cbn [swap_bytes words_of fmap list_fmap]. cbn [length] in Hb.
      rewrite IH by lia.
      destruct host; now rewrite swapUint64_word_of_bytes. }
  now apply (H (length b)).
Qed.

Lemma Endianness_eqb_spec a b : reflect (a = b) (Endianness_eqb a b).
Proof.
  destruct a as [| | s], b as [| | t]; cbn [Endianness_eqb];
    try (constructor; congruence).
  destruct (Z.eqb_spec s t); constructor; congruence.
Qed.

(** ** The scans in terms of [Test] *)

Lemma Test_outside b j :
  Word.is_uint64 j -> capacity b <= j -> Test b j = false.
Proof.
  intros Hj Hout. rewrite Test_spec by assumption.
  rewrite logical_outside; [apply Z.bits_0 |].
  unfold capacity, wordSize in Hout. Z.div_mod_to_equations. lia.
Qed.

Lemma first_from_Test x b i r :
  wf b -> Word.is_uint64 i -> first_from x (vec (native b)) i r ->
  (exists m, r = (m, true) /\ i <= m < capacity b /\ Test b m = x
             /\ forall k, i <= k < m -> Test b k = negb x)
  \/ (r = (0, false)
      /\ forall k, i <= k < capacity b -> Test b k = negb x).
Proof.
  intros [Hw Hcap] Hi. unfold first_from, capacity. rewrite len_native.
  intros [(m & Hr & Hm & Hbit & Hmin) | (Hr & Hnone)]; [left | right].
  - exists m. split; [assumption |]. split; [word_lia |]. split.
    + rewrite Test_native by word_lia. assumption.
    + intros k Hk. rewrite Test_native by word_lia. now apply Hmin.
  - split; [assumption |]. intros k Hk.
    rewrite Test_native by word_lia. apply Hnone. word_lia.
Qed.

Lemma FindLastOne_word b q :
  wf b -> 0 <= q < len (vec b) -> logical b q <> 0 ->
  (forall q', q < q' < len (vec b) -> logical b q' = 0) ->
  FindLastOne b = (q * 64 + (63 - bits.LeadingZeros64 (logical b q)), true).
Proof.
  intros Hwf Hq Hnz Hzero.
  rewrite FindLastOne_native, native_eta by assumption.
  destruct (wf_native b Hwf) as [Hw Hcap]. cbn [vec] in Hw, Hcap.
  unfold FindLastOne. cbn [vec swap].
  destruct (FindLastOne_loop_word _ Hw Hcap (length (vec (native b))))
    as [(q0 & Hq0 & Hq0nz & Hz0 & Hr) | (Hz0 & Hr)]; [unfold len; lia | |].
  - fold (len (vec (native b))) in Hq0, Hz0. rewrite len_native in Hq0, Hz0.
    rewrite logical_native in Hq0nz.
    assert (q0 = q) as ->.
    { destruct (Z.lt_trichotomy q0 q) as [Hlt | [Heq | Hgt]]; [| assumption |].
      - exfalso. apply Hnz. rewrite <- logical_native. apply Hz0. lia.
      - exfalso. apply Hq0nz. apply Hzero. lia. }
    now rewrite Hr, logical_native.
  - exfalso. apply Hnz. rewrite <- logical_native. apply Hz0.
    fold (len (vec (native b))). rewrite len_native. lia.
Qed.

Lemma last_set_Test b r :
  wf b -> last_set (vec (native b)) r ->
  (exists m, r = (m, true) /\ 0 <= m < capacity b /\ Test b m = true
             /\ forall k, Word.is_uint64 k -> m < k -> Test b k = false)
  \/ (r = (0, false) /\ forall k, Word.is_uint64 k -> Test b k = false).
Proof.
  intros [Hw Hcap]. unfold last_set, capacity. rewrite len_native.
  intros [(m & Hr & Hm & Hbit & Hmax) | (Hr & Hnone)]; [left | right].
  - exists m. split; [assumption |]. split; [word_lia |]. split.
    + rewrite Test_native by word_lia. assumption.
    + intros k Hk Hlt. rewrite Test_native by assumption. now apply Hmax.
  - split; [assumption |]. intros k Hk.
    rewrite Test_native by assumption. apply Hnone. apply Hk.
Qed.

Lemma logical_zero b q :
  Forall Word.is_uint64 (vec b) -> logical b q = 0 <-> index (vec b) q = 0.
Proof.
  intros Hw. unfold logical. destruct (swap b); [| reflexivity].
  pose proof (swapUint64_zero _ (index_in_range _ q Hw)) as E.
  split; intros H; apply Z.eqb_eq; [rewrite <- E | rewrite E];
    now apply Z.eqb_eq.
Qed.

(** ** Effects of [Set] and [Clear] on the slice *)

Lemma vec_Set_other b i (n : nat) :
  Word.is_uint64 i -> n <> Z.to_nat (i / 64) ->
  vec (fst (Set_ b i)) !! n = vec b !! n.
Proof.
  intros Hi Hn. unfold Set_. cbv zeta. rewrite word_index.
  destruct (len (vec b) <=? _); [reflexivity |].
  destruct (swap b); cbn [fst vec]; unfold store;
    now rewrite list_lookup_insert_ne by congruence.
Qed.

Lemma vec_Clear_other b i (n : nat) :
  Word.is_uint64 i -> n <> Z.to_nat (i / 64) ->
  vec (fst (Clear b i)) !! n = vec b !! n.
Proof.
  intros Hi Hn. unfold Clear. cbv zeta. rewrite word_index.
  destruct (len (vec b) <=? _); [reflexivity |].
  destruct (swap b); cbn [fst vec]; unfold store;
    now rewrite list_lookup_insert_ne by congruence.
Qed.

Lemma call_shape op b :
  len (vec (fst (call op b))) = len (vec b)
  /\ swap (fst (call op b)) = swap b.
Proof.
  destruct op as [i | i | i | i | i |]; cbn [call fst];
    try (split; reflexivity).
  - pose proof (Set_shape b i). now destruct (Set_ b i).
  - pose proof (Clear_shape b i). now destruct (Clear b i).
Qed.

(** Hypotheses of concrete instances. *)
Ltac concrete_uint := unfold Word.is_uint64, Word.modulus; lia.

Ltac concrete_wf :=
  split;
  [ repeat (apply List.Forall_cons; [concrete_uint |]); apply List.Forall_nil
  | vm_compute; discriminate ].

(** * The contract *)

(** C1. For every vector and every bit index [i] below the capacity,
    [Test] after [Set] answers [true] and [Test] after [Clear] answers
    [false], whatever the buffer held before and whether or not the
    swap flag is set. *)
Theorem set_clear_round_trip b i :
  Word.is_uint64 i -> i < capacity b ->
  Test (fst (Set_ b i)) i = true /\ Test (fst (Clear b i)) i = false.
Proof.
  intros Hi Hc.
  rewrite Test_Set, Test_Clear by assumption.
  now rewrite Z.eqb_refl.
Qed.

Lemma set_clear_round_trip_witness :
  Word.is_uint64 70 /\ 70 < capacity sample_swapped
  /\ Test (fst (Set_ sample_swapped 70)) 70 = true
  /\ Test (fst (Clear sample_swapped 70)) 70 = false.
Proof.
  assert (Hi : Word.is_uint64 70) by (unfold Word.is_uint64, Word.modulus; lia).
  assert (Hc : 70 < capacity sample_swapped) by (vm_compute; reflexivity).
  split; [exact Hi |]. split; [exact Hc |].
  exact (set_clear_round_trip sample_swapped 70 Hi Hc).
Defined.

(** C6. When the word index of [i] is at or past the word count,
    [Test] answers [false], and [Set] and [Clear] answer [false] and
    hand back the vector with every word as it was. *)
Theorem out_of_range_is_soft b i :
  Word.is_uint64 i -> len (vec b) <= Word.shr i log2WordSize ->
  Test b i = false /\ Set_ b i = (b, false) /\ Clear b i = (b, false).
Proof.
  intros Hi Hout. unfold Test, Set_, Clear. cbv zeta.
  rewrite word_index_int by assumption. rewrite word_index in Hout.
  destruct (Z.leb_spec (len (vec b)) (i / 64)); [| lia].
  repeat split.
Qed.

Lemma out_of_range_is_soft_witness :
  Word.is_uint64 128
  /\ len (vec sample_swapped) <= Word.shr 128 log2WordSize
  /\ Test sample_swapped 128 = false
  /\ Set_ sample_swapped 128 = (sample_swapped, false)
  /\ Clear sample_swapped 128 = (sample_swapped, false).
Proof.
  assert (Hi : Word.is_uint64 128)
    by (unfold Word.is_uint64, Word.modulus; lia).
  assert (Ho : len (vec sample_swapped) <= Word.shr 128 log2WordSize)
    by (vm_compute; discriminate).
  split; [exact Hi |]. split; [exact Ho |].
  exact (out_of_range_is_soft sample_swapped 128 Hi Ho).
Defined.

(** C9. No sequence of calls to [Test], [Set], [Clear], [FindFirstOne],
    [FindFirstZero] and [FindLastOne] changes the word count, the bit
    capacity or the swap flag of the vector. *)
Theorem shape_is_fixed ops b :
  len (vec (run ops b)) = len (vec b)
  /\ capacity (run ops b) = capacity b
  /\ swap (run ops b) = swap b.
Proof.
  revert b. induction ops as [| op ops IH]; intros b; cbn [run].
  - repeat split.
  - destruct (IH (fst (call op b))) as (Hl & Hc & Hs).
    destruct (call_shape op b) as [Hl' Hs'].
    unfold capacity in *. rewrite Hl, Hs, Hl', Hs'. repeat split.
Qed.

(** C10. For an in-range index [i], [Set] and [Clear] leave every word
    other than the one at [i / 64] as it was, and [Test] answers the
    same before and after for every index other than [i]. *)
Theorem set_clear_frame b i :
  Word.is_uint64 i -> i < capacity b ->
  (forall n : nat, n <> Z.to_nat (Word.shr i log2WordSize) ->
     vec (fst (Set_ b i)) !! n = vec b !! n
     /\ vec (fst (Clear b i)) !! n = vec b !! n)
  /\ (forall j, Word.is_uint64 j -> j <> i ->
        Test (fst (Set_ b i)) j = Test b j
        /\ Test (fst (Clear b i)) j = Test b j).
Proof.
  intros Hi Hc. split.
  - intros n Hn. rewrite word_index in Hn.
    now rewrite vec_Set_other, vec_Clear_other.
  - intros j Hj Hne.
    rewrite Test_Set, Test_Clear by assumption.
    destruct (Z.eqb_spec j i); [contradiction | split; reflexivity].
Qed.

Lemma set_clear_frame_witness :
  Word.is_uint64 65 /\ 65 < capacity sample_swapped
  /\ (forall n : nat, n <> Z.to_nat (Word.shr 65 log2WordSize) ->
        vec (fst (Set_ sample_swapped 65)) !! n = vec sample_swapped !! n
        /\ vec (fst (Clear sample_swapped 65)) !! n = vec sample_swapped !! n)
  /\ (forall j, Word.is_uint64 j -> j <> 65 ->
        Test (fst (Set_ sample_swapped 65)) j = Test sample_swapped j
        /\ Test (fst (Clear sample_swapped 65)) j = Test sample_swapped j).
Proof.
  assert (Hi : Word.is_uint64 65) by (unfold Word.is_uint64, Word.modulus; lia).
  assert (Hc : 65 < capacity sample_swapped) by (vm_compute; reflexivity).
  split; [exact Hi |]. split; [exact Hc |].
  exact (set_clear_frame sample_swapped 65 Hi Hc).
Defined.

(** C3. On a well-formed vector ([wf]) and from any starting index,
    [FindFirstOne] answers the smallest
    index at or after it whose bit is set whenever there is one; it
    answers "not found" when the word index of the start is at or past
    the word count, and when no bit is set from the start through the
    last word. *)
Theorem FindFirstOne_smallest b from :
  wf b -> Word.is_uint64 from ->
  (forall j, Word.is_uint64 j -> from <= j -> Test b j = true ->
     exists m, FindFirstOne b from = (m, true)
               /\ from <= m <= j /\ Test b m = true
               /\ forall k, from <= k < m -> Test b k = false)
  /\ (len (vec b) <= Word.shr from log2WordSize ->
      FindFirstOne b from = (0, false))
  /\ ((forall k, from <= k < capacity b -> Test b k = false) ->
      FindFirstOne b from = (0, false)).
Proof.
  intros Hwf Hfrom.
  pose proof (first_from_Test true b from _ Hwf Hfrom
                (FindFirstOne_post b from Hwf Hfrom)) as Hpost.
  cbn [negb] in Hpost. split; [| split].
  - intros j Hj Hle Hset.
    destruct Hpost as [(m & Hr & Hm & Hbit & Hmin) | (Hr & Hnone)].
    + exists m. repeat split; try assumption; try lia.
      destruct (Z.le_gt_cases m j) as [| Hgt]; [assumption |].
      rewrite Hmin in Hset by lia. discriminate.
    + destruct (Z.lt_ge_cases j (capacity b)) as [Hin | Hout].
      * rewrite Hnone in Hset by lia. discriminate.
      * rewrite Test_outside in Hset by assumption. discriminate.
  - intros Hout. unfold FindFirstOne. cbv zeta.
    rewrite word_index_int by assumption. rewrite word_index in Hout.
    destruct (Z.leb_spec (len (vec b)) (from / 64)); [reflexivity | lia].
  - intros Hclear.
    destruct Hpost as [(m & Hr & Hm & Hbit & Hmin) | (Hr & Hnone)];
      [| assumption].
    rewrite Hclear in Hbit by lia. discriminate.
Qed.

Lemma FindFirstOne_smallest_witness :
  wf sample_native /\ Word.is_uint64 3
  /\ (forall j, Word.is_uint64 j -> 3 <= j -> Test sample_native j = true ->
        exists m, FindFirstOne sample_native 3 = (m, true)
                  /\ 3 <= m <= j /\ Test sample_native m = true
                  /\ forall k, 3 <= k < m -> Test sample_native k = false)
  /\ (len (vec sample_native) <= Word.shr 3 log2WordSize ->
      FindFirstOne sample_native 3 = (0, false))
  /\ ((forall k, 3 <= k < capacity sample_native ->
         Test sample_native k = false) ->
      FindFirstOne sample_native 3 = (0, false)).
Proof.
  assert (Hwf : wf sample_native) by concrete_wf.
  assert (Hi : Word.is_uint64 3) by concrete_uint.
  split; [exact Hwf |]. split; [exact Hi |].
  exact (FindFirstOne_smallest sample_native 3 Hwf Hi).
Defined.

(** C4. On a well-formed vector ([wf]) and from a starting index whose
    word index is within the word count, [FindFirstZero] answers the smallest index at or after it,
    below the capacity, whose bit is clear whenever there is one; it
    answers "not found", and no index at or past the capacity, when
    every bit from the start through the last word is set, as on a
    buffer made of 1-bits only; and it answers "not found" when the
    word index of the start is at or past the word count. *)
Theorem FindFirstZero_smallest b from :
  wf b -> Word.is_uint64 from ->
  (forall j, from <= j < capacity b -> Test b j = false ->
     exists m, FindFirstZero b from = (m, true)
               /\ from <= m <= j /\ m < capacity b /\ Test b m = false
               /\ forall k, from <= k < m -> Test b k = true)
  /\ ((forall k, from <= k < capacity b -> Test b k = true) ->
      FindFirstZero b from = (0, false))
  /\ ((forall q, 0 <= q < len (vec b) -> index (vec b) q = allBits) ->
      FindFirstZero b 0 = (0, false))
  /\ (len (vec b) <= Word.shr from log2WordSize ->
      FindFirstZero b from = (0, false)).
Proof.
  intros Hwf Hfrom.
  pose proof (first_from_Test false b from _ Hwf Hfrom
                (FindFirstZero_post b from Hwf Hfrom)) as Hpost.
  cbn [negb] in Hpost. split; [| split; [| split]].
  - intros j Hj Hclear.
    destruct Hpost as [(m & Hr & Hm & Hbit & Hmin) | (Hr & Hnone)].
    + exists m. repeat split; try assumption; try lia.
      destruct (Z.le_gt_cases m j) as [| Hgt]; [assumption |].
      rewrite Hmin in Hclear by lia. discriminate.
    + rewrite Hnone in Hclear by lia. discriminate.
  - intros Hset.
    destruct Hpost as [(m & Hr & Hm & Hbit & Hmin) | (Hr & Hnone)];
      [| assumption].
    rewrite Hset in Hbit by lia. discriminate.
  - intros Hfull.
    assert (H0 : Word.is_uint64 0) by word_lia.
    destruct (first_from_Test false b 0 _ Hwf H0
                (FindFirstZero_post b 0 Hwf H0))
      as [(m & Hr & Hm & Hbit & Hmin) | (Hr & Hnone)]; [| assumption].
    exfalso. destruct Hwf as [Hw Hcap].
    rewrite Test_spec in Hbit by word_lia.
    assert (Hq : 0 <= m / 64 < len (vec b)).
    { unfold capacity, wordSize in Hm. Z.div_mod_to_equations. lia. }
    pose proof (bit_offset_range m) as Hoff.
    assert (E : logical b (m / 64) = allBits).
    { unfold logical. rewrite (Hfull _ Hq). now destruct (swap b). }
    rewrite E in Hbit. change allBits with (Z.ones 64) in Hbit.
    rewrite Z.testbit_ones_nonneg in Hbit by lia.
    destruct (Z.ltb_spec (m mod 64) 64); [discriminate | lia].
  - intros Hout. unfold FindFirstZero. cbv zeta.
    rewrite word_index_int by assumption. rewrite word_index in Hout.
    destruct (Z.leb_spec (len (vec b)) (from / 64)); [reflexivity | lia].
Qed.

Lemma FindFirstZero_smallest_witness :
  wf sample_swapped /\ Word.is_uint64 0
  /\ (forall j, 0 <= j < capacity sample_swapped ->
        Test sample_swapped j = false ->
        exists m, FindFirstZero sample_swapped 0 = (m, true)
                  /\ 0 <= m <= j /\ m < capacity sample_swapped
                  /\ Test sample_swapped m = false
                  /\ forall k, 0 <= k < m -> Test sample_swapped k = true)
  /\ ((forall k, 0 <= k < capacity sample_swapped ->
         Test sample_swapped k = true) ->
      FindFirstZero sample_swapped 0 = (0, false))
  /\ ((forall q, 0 <= q < len (vec sample_swapped) ->
         index (vec sample_swapped) q = allBits) ->
      FindFirstZero sample_swapped 0 = (0, false))
  /\ (len (vec sample_swapped) <= Word.shr 0 log2WordSize ->
      FindFirstZero sample_swapped 0 = (0, false)).
Proof.
  assert (Hwf : wf sample_swapped) by concrete_wf.
  assert (Hi : Word.is_uint64 0) by concrete_uint.
  split; [exact Hwf |]. split; [exact Hi |].
  exact (FindFirstZero_smallest sample_swapped 0 Hwf Hi).
Defined.

(** C5. On a well-formed vector ([wf]), [FindLastOne] answers the
    largest index whose bit is set: for
    the highest word that is not zero, read through the swap when it is
    configured, the index [word_index * 64 + (63 - leading zeros)]; it
    answers "not found" when every word is zero. *)
Theorem FindLastOne_largest b :
  wf b ->
  (forall q, 0 <= q < len (vec b) -> logical b q <> 0 ->
     (forall q', q < q' < len (vec b) -> logical b q' = 0) ->
     FindLastOne b
       = (q * wordSize + (63 - bits.LeadingZeros64 (logical b q)), true)
     /\ Test b (q * wordSize + (63 - bits.LeadingZeros64 (logical b q)))
        = true
     /\ forall k, Word.is_uint64 k ->
          q * wordSize + (63 - bits.LeadingZeros64 (logical b q)) < k ->
          Test b k = false)
  /\ (forall j, Word.is_uint64 j -> Test b j = true ->
        (forall k, Word.is_uint64 k -> j < k -> Test b k = false) ->
        FindLastOne b = (j, true))
  /\ ((forall q, 0 <= q < len (vec b) -> index (vec b) q = 0) ->
      FindLastOne b = (0, false)).
Proof.
  intros Hwf.
  pose proof (last_set_Test b _ Hwf (FindLastOne_post b Hwf)) as Hpost.
  split; [| split].
  - intros q Hq Hnz Hzero.
    pose proof (FindLastOne_word b q Hwf Hq Hnz Hzero) as Hr.
    unfold wordSize. rewrite Hr in Hpost |- *.
    destruct Hpost as [(m & Hm & _ & Hbit & Hmax) | (Habs & _)];
      [| discriminate].
    injection Hm as <-. repeat split; assumption.
  - intros j Hj Hset Habove.
    destruct Hpost as [(m & Hr & Hm & Hbit & Hmax) | (_ & Hnone)].
    + assert (Hmu : Word.is_uint64 m) by (destruct Hwf; word_lia).
      rewrite Hr. f_equal.
      destruct (Z.lt_trichotomy j m) as [Hlt | [Heq | Hgt]];
        [| symmetry; assumption |].
      * rewrite Habove in Hbit by assumption. discriminate.
      * rewrite Hmax in Hset by assumption. discriminate.
    + rewrite Hnone in Hset by assumption. discriminate.
  - intros Hzero.
    destruct Hpost as [(m & Hr & Hm & Hbit & Hmax) | (Hr & _)];
      [| assumption].
    exfalso. destruct Hwf as [Hw Hcap].
    rewrite Test_spec in Hbit by word_lia.
    assert (E : logical b (m / 64) = 0).
    { apply logical_zero; [assumption |]. apply Hzero.
      unfold capacity, wordSize in Hm. Z.div_mod_to_equations. lia. }
    rewrite E, Z.bits_0 in Hbit. discriminate.
Qed.

Lemma FindLastOne_largest_witness :
  wf sample_swapped
  /\ FindLastOne sample_swapped = (64, true)
  /\ Test sample_swapped 64 = true
  /\ forall k, Word.is_uint64 k -> 64 < k -> Test sample_swapped k = false.
Proof.
  assert (Hwf : wf sample_swapped) by concrete_wf.
  split; [exact Hwf |].
  refine (proj1 (FindLastOne_largest sample_swapped Hwf) 1 _ _ _).
  - vm_compute. split; [discriminate | reflexivity].
  - vm_compute. discriminate.
  - intros q' Hq'. exfalso. revert Hq'. vm_compute. intros [H1 H2].
    destruct q' as [| p | p]; try discriminate.
    destruct p; try discriminate; destruct p; discriminate.
Defined.

(** C2. For a host of either byte order and a buffer of whole words,
    the vector built over the buffer declared little-endian and the
    vector built over its 8-byte-wise reversed copy declared big-endian
    both exist and give the same [Test] answer at every index. *)
Theorem endianness_symmetry host b :
  host = LittleEndian \/ host = BigEndian ->
  Z.of_nat (length b) mod 8 = 0 ->
  exists v1 v2,
    New host b LittleEndian = Ok v1
    /\ New host (swap_bytes b) BigEndian = Ok v2
    /\ forall i, Word.is_uint64 i -> Test v1 i = Test v2 i.
Proof.
  intros Hhost Hlen. unfold New. rewrite length_swap_bytes, Hlen.
  destruct Hhost as [-> | ->]; cbn [Z.eqb negb Endianness_eqb andb];
    do 2 eexists; (split; [reflexivity |]); (split; [reflexivity |]);
    intros i Hi; rewrite !Test_spec by assumption;
    unfold logical; cbn [vec swap];
    rewrite words_of_swap_bytes, index_fmap_swap; [| reflexivity].
  rewrite swapUint64_involutive; [reflexivity |].
  apply index_in_range, words_of_uint64.
Qed.

Lemma endianness_symmetry_witness :
  (BigEndian = LittleEndian \/ BigEndian = BigEndian)
  /\ Z.of_nat (length sample_buffer) mod 8 = 0
  /\ exists v1 v2,
       New BigEndian sample_buffer LittleEndian = Ok v1
       /\ New BigEndian (swap_bytes sample_buffer) BigEndian = Ok v2
       /\ forall i, Word.is_uint64 i -> Test v1 i = Test v2 i.
Proof.
  assert (Hh : BigEndian = LittleEndian \/ BigEndian = BigEndian)
    by (right; reflexivity).
  assert (Hl : Z.of_nat (length sample_buffer) mod 8 = 0) by reflexivity.
  split; [exact Hh |]. split; [exact Hl |].
  exact (endianness_symmetry BigEndian sample_buffer Hh Hl).
Defined.

(** C7. Construction checks, in this order, the buffer length
    ([ErrInvalidLength] unless a multiple of 8), the declared
    endianness ([ErrInvalidEndianness] unless little or big) and the
    host endianness ([ErrUnsupportedArch] unless little or big); past
    the checks it succeeds with one word per 8 bytes and the swap flag
    set exactly when declared and host endianness differ. *)
Theorem New_validation host b endian :
  (Z.of_nat (length b) mod 8 <> 0 ->
   New host b endian = Err ErrInvalidLength)
  /\ (Z.of_nat (length b) mod 8 = 0 ->
      endian <> LittleEndian -> endian <> BigEndian ->
      New host b endian = Err ErrInvalidEndianness)
  /\ (Z.of_nat (length b) mod 8 = 0 ->
      endian = LittleEndian \/ endian = BigEndian ->
      host <> LittleEndian -> host <> BigEndian ->
      New host b endian = Err ErrUnsupportedArch)
  /\ (Z.of_nat (length b) mod 8 = 0 ->
      endian = LittleEndian \/ endian = BigEndian ->
      host = LittleEndian \/ host = BigEndian ->
      exists v, New host b endian = Ok v
                /\ len (vec v) = Z.of_nat (length b) / 8
                /\ (swap v = true <-> endian <> host)).
Proof.
  unfold New.
  destruct (Z.eqb_spec (Z.of_nat (length b) mod 8) 0) as [Hlen | Hlen];
    cbn [negb].
  2:{ repeat split; intros; (reflexivity || contradiction). }
  destruct (Endianness_eqb_spec endian LittleEndian) as [HeL | HeL],
           (Endianness_eqb_spec endian BigEndian) as [HeB | HeB],
           (Endianness_eqb_spec host LittleEndian) as [HhL | HhL],
           (Endianness_eqb_spec host BigEndian) as [HhB | HhB];
    cbn [negb andb]; subst; try discriminate;
    (split; [intros; contradiction |]);
    (split; [intros; (reflexivity || contradiction) |]);
    (split; [intros _ He; intros; (reflexivity || contradiction
                                   || (destruct He; contradiction)) |]);
    intros _ He Hh;
    try (destruct He; contradiction); try (destruct Hh; contradiction);
    eexists; (split; [reflexivity |]); cbn [vec swap];
    (split; [apply len_words_of |]);
    cbn [Endianness_eqb negb]; split; intros H;
    (discriminate || congruence || reflexivity).
Qed.

Lemma New_validation_witness :
  (Z.of_nat (length (zero_buffer 7)) mod 8 <> 0
   /\ New LittleEndian (zero_buffer 7) BigEndian = Err ErrInvalidLength)
  /\ (OtherEndian 2 <> LittleEndian /\ OtherEndian 2 <> BigEndian
      /\ New LittleEndian sample_buffer (OtherEndian 2)
         = Err ErrInvalidEndianness)
  /\ (OtherEndian 5 <> LittleEndian /\ OtherEndian 5 <> BigEndian
      /\ New (OtherEndian 5) sample_buffer BigEndian
         = Err ErrUnsupportedArch)
  /\ exists v, New LittleEndian sample_buffer BigEndian = Ok v
               /\ len (vec v) = Z.of_nat (length sample_buffer) / 8
               /\ (swap v = true <-> BigEndian <> LittleEndian).
Proof.
  assert (H7 : Z.of_nat (length (zero_buffer 7)) mod 8 <> 0)
    by (vm_compute; discriminate).
  assert (H8 : Z.of_nat (length sample_buffer) mod 8 = 0) by reflexivity.
  assert (H2 : OtherEndian 2 <> LittleEndian /\ OtherEndian 2 <> BigEndian)
    by (split; discriminate).
  assert (H5 : OtherEndian 5 <> LittleEndian /\ OtherEndian 5 <> BigEndian)
    by (split; discriminate).
  split; [split; [exact H7 |] | split; [| split]].
  - exact (proj1 (New_validation LittleEndian (zero_buffer 7) BigEndian) H7).
  - destruct H2 as [Ha Hb]. split; [exact Ha |]. split; [exact Hb |].
    exact (proj1 (proj2 (New_validation LittleEndian sample_buffer
                           (OtherEndian 2))) H8 Ha Hb).
  - destruct H5 as [Ha Hb]. split; [exact Ha |]. split; [exact Hb |].
    exact (proj1 (proj2 (proj2 (New_validation (OtherEndian 5) sample_buffer
                                  BigEndian)))
             H8 (or_intror eq_refl) Ha Hb).
  - exact (proj2 (proj2 (proj2 (New_validation LittleEndian sample_buffer
                                  BigEndian)))
             H8 (or_intror eq_refl) (or_introl eq_refl)).
Defined.

(** C8. Over 16 zero bytes declared little-endian on a little-endian
    host (two words, capacity 128, no swap), after [Set 9]: [Test 9] is
    true, [Test 8] is false, [FindFirstOne 0] is 9, [FindFirstZero 9]
    is 10 and [FindLastOne] is 9. *)
Theorem concrete_scenario :
  exists v,
    New LittleEndian (zero_buffer 16) LittleEndian = Ok v
    /\ len (vec v) = 2 /\ capacity v = 128 /\ swap v = false
    /\ snd (Set_ v 9) = true
    /\ Test (fst (Set_ v 9)) 9 = true
    /\ Test (fst (Set_ v 9)) 8 = false
    /\ FindFirstOne (fst (Set_ v 9)) 0 = (9, true)
    /\ FindFirstZero (fst (Set_ v 9)) 9 = (10, true)
    /\ FindLastOne (fst (Set_ v 9)) = (9, true).
Proof.
  eexists. split; [vm_compute; reflexivity |].
  vm_compute. repeat split.
Qed.

(** * Further properties of the code *)

(** ** [Set] and [Clear] keep the words within 64 bits *)

Lemma lor_uint64 x y :
  Word.is_uint64 x -> Word.is_uint64 y -> Word.is_uint64 (Z.lor x y).
Proof.
  intros Hx Hy. apply uint64_of_bits.
  - apply Z.lor_nonneg. split; [apply Hx | apply Hy].
  - intros k Hk. rewrite Z.lor_spec.
    now rewrite !testbit_uint64_high by assumption.
Qed.

Lemma andnot_uint64 x y : Word.is_uint64 x -> Word.is_uint64 (Word.andnot x y).
Proof.
  intros Hx. unfold Word.andnot. apply uint64_of_bits.
  - apply Z.land_nonneg. left. apply Hx.
  - intros k Hk. rewrite Z.land_spec.
    now rewrite testbit_uint64_high by assumption.
Qed.

Lemma shl_uint64 x s : Word.is_uint64 (Word.shl x s).
Proof.
  unfold Word.shl, Word.to_uint, Word.is_uint64, Word.modulus.
  apply Z.mod_pos_bound. lia.
Qed.

Lemma store_uint64 (w : list Z) idx x :
  Forall Word.is_uint64 w -> Word.is_uint64 x ->
  Forall Word.is_uint64 (store w idx x).
Proof. intros Hw Hx. unfold store. now apply Forall_insert. Qed.

Lemma Set_words b i :
  Forall Word.is_uint64 (vec b) ->
  Forall Word.is_uint64 (vec (fst (Set_ b i))).
Proof.
  intros Hw. unfold Set_. cbv zeta.
  destruct (len (vec b) <=? _); [assumption |].
  destruct (swap b); cbn [fst vec]; apply store_uint64; try assumption.
  - apply swapUint64_uint64.
  - apply lor_uint64; [now apply index_in_range | apply shl_uint64].
Qed.

Lemma Clear_words b i :
  Forall Word.is_uint64 (vec b) ->
  Forall Word.is_uint64 (vec (fst (Clear b i))).
Proof.
  intros Hw. unfold Clear. cbv zeta.
  destruct (len (vec b) <=? _); [assumption |].
  destruct (swap b); cbn [fst vec]; apply store_uint64; try assumption.
  - apply swapUint64_uint64.
  - apply andnot_uint64. now apply index_in_range.
Qed.

Lemma Set_wf b i : wf b -> wf (fst (Set_ b i)).
Proof.
  intros [Hw Hcap]. split; [now apply Set_words |].
  now rewrite (proj1 (Set_shape b i)).
Qed.

Lemma Clear_wf b i : wf b -> wf (fst (Clear b i)).
Proof.
  intros [Hw Hcap]. split; [now apply Clear_words |].
  now rewrite (proj1 (Clear_shape b i)).
Qed.

Lemma capacity_Set b i : capacity (fst (Set_ b i)) = capacity b.
Proof. unfold capacity. now rewrite (proj1 (Set_shape b i)). Qed.

Lemma capacity_Clear b i : capacity (fst (Clear b i)) = capacity b.
Proof. unfold capacity. now rewrite (proj1 (Clear_shape b i)). Qed.

Lemma Set_outside b i :
  Word.is_uint64 i -> capacity b <= i -> Set_ b i = (b, false).
Proof.
  intros Hi Hout. unfold Set_. cbv zeta.
  rewrite word_index_int by assumption.
  destruct (Z.leb_spec (len (vec b)) (i / 64)) as [| Hin]; [reflexivity |].
  unfold capacity, wordSize in Hout. Z.div_mod_to_equations. lia.
Qed.

Lemma Clear_outside b i :
  Word.is_uint64 i -> capacity b <= i -> Clear b i = (b, false).
Proof.
  intros Hi Hout. unfold Clear. cbv zeta.
  rewrite word_index_int by assumption.
  destruct (Z.leb_spec (len (vec b)) (i / 64)) as [| Hin]; [reflexivity |].
  unfold capacity, wordSize in Hout. Z.div_mod_to_equations. lia.
Qed.

(** [Test] after [Set] and [Clear], in or out of range. *)
Lemma Test_Set_any b i j :
  Word.is_uint64 i -> Word.is_uint64 j ->
  Test (fst (Set_ b i)) j = ((j =? i) && (i <? capacity b)) || Test b j.
Proof.
  intros Hi Hj. destruct (Z.ltb_spec i (capacity b)) as [Hin | Hout].
  - rewrite andb_true_r. now apply Test_Set.
  - rewrite andb_false_r, Set_outside by assumption. reflexivity.
Qed.

Lemma Test_Clear_any b i j :
  Word.is_uint64 i -> Word.is_uint64 j ->
  Test (fst (Clear b i)) j = negb (j =? i) && Test b j.
Proof.
  intros Hi Hj. destruct (Z.ltb_spec i (capacity b)) as [Hin | Hout].
  - now apply Test_Clear.
  - rewrite Clear_outside by assumption. cbn [fst].
    destruct (Z.eqb_spec j i) as [-> |]; [| reflexivity].
    now rewrite Test_outside.
Qed.

(** ** The buffer is determined by what [Test] answers *)

Lemma word_ext x y :
  Word.is_uint64 x -> Word.is_uint64 y ->
  (forall r, 0 <= r < 64 -> Z.testbit x r = Z.testbit y r) -> x = y.
Proof.
  intros Hx Hy Hbits. apply Z.bits_inj'. intros k Hk.
  destruct (Z.lt_ge_cases k 64) as [Hlt | Hge].
  - apply Hbits. lia.
  - now rewrite !testbit_uint64_high by assumption.
Qed.

Lemma swapUint64_inj x y :
  Word.is_uint64 x -> Word.is_uint64 y ->
  swapUint64 x = swapUint64 y -> x = y.
Proof.
  intros Hx Hy E.
  now rewrite <- (swapUint64_involutive x Hx), E, swapUint64_involutive.
Qed.

Lemma BitVec_ext b1 b2 :
  wf b1 -> wf b2 -> swap b1 = swap b2 -> len (vec b1) = len (vec b2) ->
  (forall k, 0 <= k < capacity b1 -> Test b1 k = Test b2 k) ->
  b1 = b2.
Proof.
  destruct b1 as [w1 s1], b2 as [w2 s2]. cbn [vec swap].
  intros [Hw1 Hc1] [Hw2 Hc2] <- Hlen Htest. cbn [vec] in *.
  f_equal. apply list_eq. intros n.
  destruct (w1 !! n) as [x |] eqn:E1.
  - assert (Hn : (n < length w1)%nat) by (eapply lookup_lt_Some; eassumption).
    destruct (w2 !! n) as [y |] eqn:E2.
    2:{ apply lookup_ge_None in E2. unfold len in Hlen. lia. }
    f_equal.
    assert (Hx : Word.is_uint64 x) by exact (Forall_lookup_1 _ _ _ _ Hw1 E1).
    assert (Hy : Word.is_uint64 y) by exact (Forall_lookup_1 _ _ _ _ Hw2 E2).
    assert (Hbits : forall r, 0 <= r < 64 ->
              Z.testbit (if s1 then swapUint64 x else x) r
              = Z.testbit (if s1 then swapUint64 y else y) r).
    { intros r Hr.
      assert (Hk : 0 <= Z.of_nat n * 64 + r < len w1 * 64)
        by (unfold len; lia).
      assert (Hku : Word.is_uint64 (Z.of_nat n * 64 + r)) by word_lia.
      specialize (Htest _ Hk). rewrite !Test_spec in Htest by assumption.
      replace ((Z.of_nat n * 64 + r) / 64) with (Z.of_nat n) in Htest
        by (Z.div_mod_to_equations; lia).
      replace ((Z.of_nat n * 64 + r) mod 64) with r in Htest
        by (Z.div_mod_to_equations; lia).
      unfold logical, index in Htest. cbn [vec swap] in Htest.
      now rewrite Nat2Z.id, E1, E2 in Htest. }
    destruct s1.
    + apply swapUint64_inj; try assumption.
      apply word_ext; try apply swapUint64_uint64. assumption.
    + now apply word_ext.
  - apply lookup_ge_None in E1. symmetry. apply lookup_ge_None.
    unfold len in Hlen. lia.
Qed.

(** ** Sequences of [Set] and [Clear] *)

Lemma shape_Set b i :
  swap (fst (Set_ b i)) = swap b /\ len (vec (fst (Set_ b i))) = len (vec b).
Proof. destruct (Set_shape b i). now split. Qed.

Lemma shape_Clear b i :
  swap (fst (Clear b i)) = swap b
  /\ len (vec (fst (Clear b i))) = len (vec b).
Proof. destruct (Clear_shape b i). now split. Qed.

(** Two vectors reached from [b] by [Set] and [Clear] are equal as soon
    as [Test] cannot tell them apart. *)
Ltac same_shape :=
  repeat first [ rewrite (proj1 (shape_Set _ _))
               | rewrite (proj2 (shape_Set _ _))
               | rewrite (proj1 (shape_Clear _ _))
               | rewrite (proj2 (shape_Clear _ _)) ];
  reflexivity.

Ltac by_tests Hwf :=
  apply BitVec_ext;
  [ repeat first [apply Set_wf | apply Clear_wf]; exact Hwf
  | repeat first [apply Set_wf | apply Clear_wf]; exact Hwf
  | same_shape
  | same_shape
  | repeat first [rewrite capacity_Set | rewrite capacity_Clear] ].

Ltac split_tests :=
  repeat match goal with
  | |- context [?a =? ?b] => destruct (Z.eqb_spec a b); subst
  | |- context [?a <? ?b] => destruct (Z.ltb_spec a b)
  end;
  cbn [andb orb negb]; rewrite ?andb_true_r, ?andb_false_r, ?orb_false_r;
  try reflexivity; try lia; try congruence.

(** X1. [Set] on a bit that is already set, and [Clear] on a bit that
    is already clear, leave the buffer exactly as it was. *)
Theorem write_same_value_keeps_buffer b i :
  wf b -> Word.is_uint64 i ->
  (Test b i = true -> fst (Set_ b i) = b)
  /\ (Test b i = false -> fst (Clear b i) = b).
Proof.
  intros Hwf Hi. pose proof Hwf as [_ Hcap]. split; intros Hbit.
  - by_tests Hwf. intros k Hk.
    rewrite Test_Set_any by word_lia. split_tests; try (now rewrite Hbit).
  - by_tests Hwf. intros k Hk.
    rewrite Test_Clear_any by word_lia. split_tests; try (now rewrite Hbit).
Qed.

Lemma write_same_value_keeps_buffer_witness :
  wf sample_swapped /\ Word.is_uint64 64
  /\ (Test sample_swapped 64 = true -> fst (Set_ sample_swapped 64) = sample_swapped)
  /\ (Test sample_swapped 64 = false ->
      fst (Clear sample_swapped 64) = sample_swapped).
Proof.
  assert (Hwf : wf sample_swapped) by concrete_wf.
  assert (Hi : Word.is_uint64 64) by concrete_uint.
  split; [exact Hwf |]. split; [exact Hi |].
  exact (write_same_value_keeps_buffer sample_swapped 64 Hwf Hi).
Defined.

(** X2. [Clear] undoes a [Set] of a bit that was clear, and [Set]
    undoes a [Clear] of a bit that was set: the buffer is back to what
    it was, byte for byte. *)
Theorem set_clear_undo b i :
  wf b -> Word.is_uint64 i ->
  (Test b i = false -> fst (Clear (fst (Set_ b i)) i) = b)
  /\ (Test b i = true -> fst (Set_ (fst (Clear b i)) i) = b).
Proof.
  intros Hwf Hi. pose proof Hwf as [_ Hcap]. split; intros Hbit.
  - by_tests Hwf. intros k Hk.
    rewrite Test_Clear_any, Test_Set_any by word_lia.
    split_tests; try (now rewrite Hbit).
  - by_tests Hwf. intros k Hk.
    rewrite Test_Set_any, Test_Clear_any, capacity_Clear by word_lia.
    split_tests; try (now rewrite Hbit).
Qed.

Lemma set_clear_undo_witness :
  wf sample_swapped /\ Word.is_uint64 70
  /\ (Test sample_swapped 70 = false ->
      fst (Clear (fst (Set_ sample_swapped 70)) 70) = sample_swapped)
  /\ (Test sample_swapped 70 = true ->
      fst (Set_ (fst (Clear sample_swapped 70)) 70) = sample_swapped).
Proof.
  assert (Hwf : wf sample_swapped) by concrete_wf.
  assert (Hi : Word.is_uint64 70) by concrete_uint.
  split; [exact Hwf |]. split; [exact Hi |].
  exact (set_clear_undo sample_swapped 70 Hwf Hi).
Defined.

(** X3. On one index the last write wins: a second [Set] or [Clear]
    makes the buffer what that call alone would have made it. *)
Theorem last_write_wins b i :
  wf b -> Word.is_uint64 i ->
  fst (Set_ (fst (Set_ b i)) i) = fst (Set_ b i)
  /\ fst (Clear (fst (Clear b i)) i) = fst (Clear b i)
  /\ fst (Clear (fst (Set_ b i)) i) = fst (Clear b i)
  /\ fst (Set_ (fst (Clear b i)) i) = fst (Set_ b i).
Proof.
  intros Hwf Hi. pose proof Hwf as [_ Hcap].
  repeat apply conj; by_tests Hwf; intros k Hk;
    rewrite ?Test_Set_any, ?Test_Clear_any, ?capacity_Set, ?capacity_Clear
      by word_lia;
    rewrite ?Test_Set_any, ?Test_Clear_any, ?capacity_Set, ?capacity_Clear
      by word_lia;
    split_tests; destruct (Test b i); reflexivity.
Qed.

Lemma last_write_wins_witness :
  wf sample_native /\ Word.is_uint64 9
  /\ fst (Set_ (fst (Set_ sample_native 9)) 9) = fst (Set_ sample_native 9)
  /\ fst (Clear (fst (Clear sample_native 9)) 9) = fst (Clear sample_native 9)
  /\ fst (Clear (fst (Set_ sample_native 9)) 9) = fst (Clear sample_native 9)
  /\ fst (Set_ (fst (Clear sample_native 9)) 9) = fst (Set_ sample_native 9).
Proof.
  assert (Hwf : wf sample_native) by concrete_wf.
  assert (Hi : Word.is_uint64 9) by concrete_uint.
  split; [exact Hwf |]. split; [exact Hi |].
  exact (last_write_wins sample_native 9 Hwf Hi).
Defined.

(** X4. Writes to different indices commute, also inside one word and
    on the swapped path: the buffer after two calls does not depend on
    their order. *)
Theorem writes_commute b i j :
  wf b -> Word.is_uint64 i -> Word.is_uint64 j ->
  fst (Set_ (fst (Set_ b i)) j) = fst (Set_ (fst (Set_ b j)) i)
  /\ fst (Clear (fst (Clear b i)) j) = fst (Clear (fst (Clear b j)) i)
  /\ (i <> j ->
      fst (Clear (fst (Set_ b i)) j) = fst (Set_ (fst (Clear b j)) i)).
Proof.
  intros Hwf Hi Hj. pose proof Hwf as [_ Hcap].
  repeat apply conj; [| | intros Hne]; by_tests Hwf; intros k Hk;
    rewrite ?Test_Set_any, ?Test_Clear_any, ?capacity_Set, ?capacity_Clear
      by word_lia;
    rewrite ?Test_Set_any, ?Test_Clear_any, ?capacity_Set, ?capacity_Clear
      by word_lia;
    split_tests; destruct (Test b k); reflexivity.
Qed.

Lemma writes_commute_witness :
  wf sample_swapped /\ Word.is_uint64 5 /\ Word.is_uint64 7
  /\ fst (Set_ (fst (Set_ sample_swapped 5)) 7)
     = fst (Set_ (fst (Set_ sample_swapped 7)) 5)
  /\ fst (Clear (fst (Clear sample_swapped 5)) 7)
     = fst (Clear (fst (Clear sample_swapped 7)) 5)
  /\ (5 <> 7 ->
      fst (Clear (fst (Set_ sample_swapped 5)) 7)
      = fst (Set_ (fst (Clear sample_swapped 7)) 5)).
Proof.
  assert (Hwf : wf sample_swapped) by concrete_wf.
  assert (Hi : Word.is_uint64 5) by concrete_uint.
  assert (Hj : Word.is_uint64 7) by concrete_uint.
  split; [exact Hwf |]. split; [exact Hi |]. split; [exact Hj |].
  exact (writes_commute sample_swapped 5 7 Hwf Hi Hj).
Defined.

(** ** What the scans answer *)

Lemma FindFirstOne_answer b from :
  wf b -> Word.is_uint64 from ->
  first_answer true b from (FindFirstOne b from).
Proof.
  intros Hwf Hi. apply first_from_Test; try assumption.
  now apply FindFirstOne_post.
Qed.

Lemma FindFirstZero_answer b from :
  wf b -> Word.is_uint64 from ->
  first_answer false b from (FindFirstZero b from).
Proof.
  intros Hwf Hi. apply first_from_Test; try assumption.
  now apply FindFirstZero_post.
Qed.

Lemma FindLastOne_answer b : wf b -> last_answer b (FindLastOne b).
Proof.
  intros Hwf. apply last_set_Test; [assumption |].
  now apply FindLastOne_post.
Qed.

Lemma first_answer_unique x b1 b2 from r1 r2 :
  first_answer x b1 from r1 -> first_answer x b2 from r2 ->
  capacity b1 = capacity b2 ->
  (forall k, from <= k < capacity b1 -> Test b1 k = Test b2 k) ->
  r1 = r2.
Proof.
  intros [(m1 & -> & Hm1 & Hb1 & Hmin1) | (-> & Hn1)]
         [(m2 & -> & Hm2 & Hb2 & Hmin2) | (-> & Hn2)] Hcap Hsame.
  - f_equal. destruct (Z.lt_trichotomy m1 m2) as [Hlt | [Heq | Hgt]];
      [| assumption |]; exfalso.
    + rewrite Hsame, Hmin2 in Hb1 by lia. now destruct x.
    + rewrite <- Hsame, Hmin1 in Hb2 by lia. now destruct x.
  - exfalso. rewrite Hsame, Hn2 in Hb1 by lia. now destruct x.
  - exfalso. rewrite <- Hsame, Hn1 in Hb2 by lia. now destruct x.
  - reflexivity.
Qed.

Lemma first_answer_here x b i r :
  first_answer x b i r ->
  r = (i, true) <-> (Test b i = x /\ i < capacity b).
Proof.
  intros [(m & -> & Hm & Hb & Hmin) | (-> & Hn)]; split.
  - intros E. injection E as ->. split; [assumption | lia].
  - intros [Hx Hc]. f_equal.
    destruct (Z.eq_dec m i) as [| Hne]; [assumption | exfalso].
    rewrite Hmin in Hx by lia. now destruct x.
  - discriminate.
  - intros [Hx Hc]. exfalso.
    rewrite Hn in Hx by lia. now destruct x.
Qed.

Lemma first_answer_later x b from from' r r' :
  first_answer x b from r -> first_answer x b from' r' ->
  from <= from' -> (snd r = true -> from' <= fst r) -> r' = r.
Proof.
  intros [(m & -> & Hm & Hb & Hmin) | (-> & Hn)]
         [(m' & -> & Hm' & Hb' & Hmin') | (-> & Hn')] Hle Hup;
    cbn [fst snd] in Hup.
  - specialize (Hup eq_refl). f_equal.
    destruct (Z.lt_trichotomy m' m) as [Hlt | [Heq | Hgt]];
      [| assumption |]; exfalso.
    + rewrite Hmin in Hb' by lia. now destruct x.
    + rewrite Hmin' in Hb by lia. now destruct x.
  - specialize (Hup eq_refl). exfalso.
    rewrite Hn' in Hb by lia. now destruct x.
  - exfalso. rewrite Hn in Hb' by lia. now destruct x.
  - reflexivity.
Qed.

Lemma last_answer_unique b1 b2 r1 r2 :
  wf b1 -> wf b2 ->
  last_answer b1 r1 -> last_answer b2 r2 ->
  (forall k, Word.is_uint64 k -> Test b1 k = Test b2 k) ->
  r1 = r2.
Proof.
  intros [_ Hc1] [_ Hc2]
         [(m1 & -> & Hm1 & Hb1 & Hmax1) | (-> & Hn1)]
         [(m2 & -> & Hm2 & Hb2 & Hmax2) | (-> & Hn2)] Hsame.
  - assert (Hu1 : Word.is_uint64 m1) by word_lia.
    assert (Hu2 : Word.is_uint64 m2) by word_lia.
    f_equal. destruct (Z.lt_trichotomy m1 m2) as [Hlt | [Heq | Hgt]];
      [| assumption |]; exfalso.
    + rewrite <- Hsame, Hmax1 in Hb2 by assumption. discriminate.
    + rewrite Hsame, Hmax2 in Hb1 by assumption. discriminate.
  - exfalso. assert (Hu1 : Word.is_uint64 m1) by word_lia.
    rewrite Hsame, Hn2 in Hb1 by assumption. discriminate.
  - exfalso. assert (Hu2 : Word.is_uint64 m2) by word_lia.
    rewrite <- Hsame, Hn1 in Hb2 by assumption. discriminate.
  - reflexivity.
Qed.

(** X5. What a scan hands back is always usable: a found index lies
    between the start and the capacity and [Test] confirms it, and a
    "not found" answer carries index 0. *)
Theorem scan_answers_are_sound b from :
  wf b -> Word.is_uint64 from ->
  (forall m ok, FindFirstOne b from = (m, ok) ->
     if ok then from <= m < capacity b /\ Test b m = true else m = 0)
  /\ (forall m ok, FindFirstZero b from = (m, ok) ->
        if ok then from <= m < capacity b /\ Test b m = false else m = 0)
  /\ (forall m ok, FindLastOne b = (m, ok) ->
        if ok then 0 <= m < capacity b /\ Test b m = true else m = 0).
Proof.
  intros Hwf Hfrom. repeat apply conj; intros m ok E.
  - destruct (FindFirstOne_answer b from Hwf Hfrom)
      as [(m' & Hr & Hm & Hb & _) | (Hr & _)];
      rewrite Hr in E; injection E as <- <-; [now split | reflexivity].
  - destruct (FindFirstZero_answer b from Hwf Hfrom)
      as [(m' & Hr & Hm & Hb & _) | (Hr & _)];
      rewrite Hr in E; injection E as <- <-; [now split | reflexivity].
  - destruct (FindLastOne_answer b Hwf)
      as [(m' & Hr & Hm & Hb & _) | (Hr & _)];
      rewrite Hr in E; injection E as <- <-; [now split | reflexivity].
Qed.

Lemma scan_answers_are_sound_witness :
  wf sample_swapped /\ Word.is_uint64 2
  /\ (forall m ok, FindFirstOne sample_swapped 2 = (m, ok) ->
        if ok then 2 <= m < capacity sample_swapped
                   /\ Test sample_swapped m = true
        else m = 0)
  /\ (forall m ok, FindFirstZero sample_swapped 2 = (m, ok) ->
        if ok then 2 <= m < capacity sample_swapped
                   /\ Test sample_swapped m = false
        else m = 0)
  /\ (forall m ok, FindLastOne sample_swapped = (m, ok) ->
        if ok then 0 <= m < capacity sample_swapped
                   /\ Test sample_swapped m = true
        else m = 0).
Proof.
  assert (Hwf : wf sample_swapped) by concrete_wf.
  assert (Hi : Word.is_uint64 2) by concrete_uint.
  split; [exact Hwf |]. split; [exact Hi |].
  exact (scan_answers_are_sound sample_swapped 2 Hwf Hi).
Defined.

(** X6. A scan started on a bit of the value it looks for answers that
    very index, and only then: [FindFirstOne i] is [(i, true)] exactly
    when [Test i] is true, and [FindFirstZero i] is [(i, true)] exactly
    when [i] is below the capacity and [Test i] is false. *)
Theorem scan_starts_on_hit b i :
  wf b -> Word.is_uint64 i ->
  (FindFirstOne b i = (i, true) <-> Test b i = true)
  /\ (FindFirstZero b i = (i, true)
      <-> (Test b i = false /\ i < capacity b)).
Proof.
  intros Hwf Hi. split.
  - rewrite (first_answer_here true b i _ (FindFirstOne_answer b i Hwf Hi)).
    split; [now intros [H _] | intros H; split; [assumption |]].
    destruct (Z.lt_ge_cases i (capacity b)) as [| Hout]; [assumption |].
    rewrite Test_outside in H by assumption. discriminate.
  - apply first_answer_here. now apply FindFirstZero_answer.
Qed.

Lemma scan_starts_on_hit_witness :
  wf sample_native /\ Word.is_uint64 9
  /\ (FindFirstOne sample_native 9 = (9, true) <-> Test sample_native 9 = true)
  /\ (FindFirstZero sample_native 9 = (9, true)
      <-> (Test sample_native 9 = false /\ 9 < capacity sample_native)).
Proof.
  assert (Hwf : wf sample_native) by concrete_wf.
  assert (Hi : Word.is_uint64 9) by concrete_uint.
  split; [exact Hwf |]. split; [exact Hi |].
  exact (scan_starts_on_hit sample_native 9 Hwf Hi).
Defined.

(** X7. Restarting a forward scan anywhere between its start and its
    answer gives the same answer, and once a scan finds nothing every
    later start finds nothing. *)
Theorem scan_restart b from from' :
  wf b -> Word.is_uint64 from -> Word.is_uint64 from' -> from <= from' ->
  (forall m, FindFirstOne b from = (m, true) -> from' <= m ->
     FindFirstOne b from' = (m, true))
  /\ (FindFirstOne b from = (0, false) -> FindFirstOne b from' = (0, false))
  /\ (forall m, FindFirstZero b from = (m, true) -> from' <= m ->
        FindFirstZero b from' = (m, true))
  /\ (FindFirstZero b from = (0, false) ->
      FindFirstZero b from' = (0, false)).
Proof.
  intros Hwf Hfrom Hfrom' Hle.
  pose proof (FindFirstOne_answer b from Hwf Hfrom) as H1.
  pose proof (FindFirstOne_answer b from' Hwf Hfrom') as H1'.
  pose proof (FindFirstZero_answer b from Hwf Hfrom) as H0.
  pose proof (FindFirstZero_answer b from' Hwf Hfrom') as H0'.
  repeat apply conj.
  - intros m E Hm. rewrite <- E.
    apply (first_answer_later true b from from'); try assumption.
    rewrite E. intros _. exact Hm.
  - intros E. rewrite <- E.
    apply (first_answer_later true b from from'); try assumption.
    rewrite E. discriminate.
  - intros m E Hm. rewrite <- E.
    apply (first_answer_later false b from from'); try assumption.
    rewrite E. intros _. exact Hm.
  - intros E. rewrite <- E.
    apply (first_answer_later false b from from'); try assumption.
    rewrite E. discriminate.
Qed.

Lemma scan_restart_witness :
  wf sample_native /\ Word.is_uint64 0 /\ Word.is_uint64 5 /\ 0 <= 5
  /\ (forall m, FindFirstOne sample_native 0 = (m, true) -> 5 <= m ->
        FindFirstOne sample_native 5 = (m, true))
  /\ (FindFirstOne sample_native 0 = (0, false) ->
      FindFirstOne sample_native 5 = (0, false))
  /\ (forall m, FindFirstZero sample_native 0 = (m, true) -> 5 <= m ->
        FindFirstZero sample_native 5 = (m, true))
  /\ (FindFirstZero sample_native 0 = (0, false) ->
      FindFirstZero sample_native 5 = (0, false)).
Proof.
  assert (Hwf : wf sample_native) by concrete_wf.
  assert (H0 : Word.is_uint64 0) by concrete_uint.
  assert (H5 : Word.is_uint64 5) by concrete_uint.
  assert (Hle : 0 <= 5) by lia.
  split; [exact Hwf |]. split; [exact H0 |]. split; [exact H5 |].
  split; [exact Hle |].
  exact (scan_restart sample_native 0 5 Hwf H0 H5 Hle).
Defined.

(** X8. [FindFirstOne 0] and [FindLastOne] find a bit together or not
    at all, and the first set bit is never after the last. *)
Theorem first_one_before_last_one b :
  wf b ->
  snd (FindFirstOne b 0) = snd (FindLastOne b)
  /\ fst (FindFirstOne b 0) <= fst (FindLastOne b).
Proof.
  intros Hwf. pose proof Hwf as [_ Hcap].
  assert (H0 : Word.is_uint64 0) by word_lia.
  destruct (FindFirstOne_answer b 0 Hwf H0)
    as [(f & -> & Hf & Hbf & Hmin) | (-> & Hnone)];
    destruct (FindLastOne_answer b Hwf)
      as [(l & -> & Hl & Hbl & Hmax) | (-> & Hnone')]; cbn [fst snd].
  - split; [reflexivity |].
    destruct (Z.le_gt_cases f l) as [| Hgt]; [assumption | exfalso].
    rewrite Hmax in Hbf by word_lia. discriminate.
  - exfalso. rewrite Hnone' in Hbf by word_lia. discriminate.
  - exfalso. rewrite Hnone in Hbl by lia. discriminate.
  - split; [reflexivity | lia].
Qed.

Lemma first_one_before_last_one_witness :
  wf sample_swapped
  /\ snd (FindFirstOne sample_swapped 0) = snd (FindLastOne sample_swapped)
  /\ fst (FindFirstOne sample_swapped 0) <= fst (FindLastOne sample_swapped).
Proof.
  assert (Hwf : wf sample_swapped) by concrete_wf.
  split; [exact Hwf |].
  exact (first_one_before_last_one sample_swapped Hwf).
Defined.

(** ** The scans see only what [Test] sees *)

Lemma native_idem b : native (native b) = native b.
Proof. unfold native. now destruct b as [w [|]]. Qed.

Lemma Test_native_same b k :
  Word.is_uint64 k -> Test (native b) k = Test b k.
Proof.
  intros Hk. now rewrite (Test_native b), (Test_native (native b)), native_idem.
Qed.

Lemma wf_native_vec b : wf b -> wf (native b).
Proof. intros Hwf. rewrite native_eta. now apply wf_native. Qed.

Lemma capacity_native b : capacity (native b) = capacity b.
Proof. unfold capacity. now rewrite len_native. Qed.

(** X9. Two vectors of the same capacity that [Test] cannot tell apart
    give the same answers to all three scans, whatever their swap flags
    and stored byte orders are. *)
Theorem scans_depend_on_bits_only b1 b2 :
  wf b1 -> wf b2 -> capacity b1 = capacity b2 ->
  (forall k, Word.is_uint64 k -> Test b1 k = Test b2 k) ->
  (forall from, Word.is_uint64 from ->
     FindFirstOne b1 from = FindFirstOne b2 from
     /\ FindFirstZero b1 from = FindFirstZero b2 from)
  /\ FindLastOne b1 = FindLastOne b2.
Proof.
  intros Hwf1 Hwf2 Hcap Hsame. pose proof Hwf1 as [_ Hc1]. split.
  - intros from Hfrom. split.
    + apply (first_answer_unique true b1 b2 from); try assumption;
        try (now apply FindFirstOne_answer).
      intros k Hk. apply Hsame. word_lia.
    + apply (first_answer_unique false b1 b2 from); try assumption;
        try (now apply FindFirstZero_answer).
      intros k Hk. apply Hsame. word_lia.
  - apply (last_answer_unique b1 b2); try assumption;
      now apply FindLastOne_answer.
Qed.

Lemma scans_depend_on_bits_only_witness :
  wf sample_swapped /\ wf (native sample_swapped)
  /\ capacity sample_swapped = capacity (native sample_swapped)
  /\ (forall from, Word.is_uint64 from ->
        FindFirstOne sample_swapped from
        = FindFirstOne (native sample_swapped) from
        /\ FindFirstZero sample_swapped from
           = FindFirstZero (native sample_swapped) from)
  /\ FindLastOne sample_swapped = FindLastOne (native sample_swapped).
Proof.
  assert (Hwf : wf sample_swapped) by concrete_wf.
  assert (Hwf' : wf (native sample_swapped))
    by (apply wf_native_vec; exact Hwf).
  assert (Hc : capacity sample_swapped = capacity (native sample_swapped))
    by reflexivity.
  split; [exact Hwf |]. split; [exact Hwf' |]. split; [exact Hc |].
  exact (scans_depend_on_bits_only sample_swapped (native sample_swapped)
           Hwf Hwf' Hc
           (fun k Hk => eq_sym (Test_native_same sample_swapped k Hk))).
Defined.

(** X10. A write below the start of a forward scan does not change the
    scan's answer. *)
Theorem scan_ignores_writes_below b from j :
  wf b -> Word.is_uint64 from -> Word.is_uint64 j -> j < from ->
  FindFirstOne (fst (Set_ b j)) from = FindFirstOne b from
  /\ FindFirstOne (fst (Clear b j)) from = FindFirstOne b from
  /\ FindFirstZero (fst (Set_ b j)) from = FindFirstZero b from
  /\ FindFirstZero (fst (Clear b j)) from = FindFirstZero b from.
Proof.
  intros Hwf Hfrom Hj Hlt. pose proof Hwf as [_ Hcap].
  pose proof (Set_wf b j Hwf) as HwfS.
  pose proof (Clear_wf b j Hwf) as HwfC.
  repeat apply conj.
  - apply (first_answer_unique true (fst (Set_ b j)) b from);
      try (now apply FindFirstOne_answer); [apply capacity_Set |].
    intros k Hk. rewrite capacity_Set in Hk.
    rewrite Test_Set_any by word_lia. split_tests.
  - apply (first_answer_unique true (fst (Clear b j)) b from);
      try (now apply FindFirstOne_answer); [apply capacity_Clear |].
    intros k Hk. rewrite capacity_Clear in Hk.
    rewrite Test_Clear_any by word_lia. split_tests.
  - apply (first_answer_unique false (fst (Set_ b j)) b from);
      try (now apply FindFirstZero_answer); [apply capacity_Set |].
    intros k Hk. rewrite capacity_Set in Hk.
    rewrite Test_Set_any by word_lia. split_tests.
  - apply (first_answer_unique false (fst (Clear b j)) b from);
      try (now apply FindFirstZero_answer); [apply capacity_Clear |].
    intros k Hk. rewrite capacity_Clear in Hk.
    rewrite Test_Clear_any by word_lia. split_tests.
Qed.

Lemma scan_ignores_writes_below_witness :
  wf sample_swapped /\ Word.is_uint64 40 /\ Word.is_uint64 1 /\ 1 < 40
  /\ FindFirstOne (fst (Set_ sample_swapped 1)) 40
     = FindFirstOne sample_swapped 40
  /\ FindFirstOne (fst (Clear sample_swapped 1)) 40
     = FindFirstOne sample_swapped 40
  /\ FindFirstZero (fst (Set_ sample_swapped 1)) 40
     = FindFirstZero sample_swapped 40
  /\ FindFirstZero (fst (Clear sample_swapped 1)) 40
     = FindFirstZero sample_swapped 40.
Proof.
  assert (Hwf : wf sample_swapped) by concrete_wf.
  assert (H40 : Word.is_uint64 40) by concrete_uint.
  assert (H1 : Word.is_uint64 1) by concrete_uint.
  assert (Hlt : 1 < 40) by lia.
  split; [exact Hwf |]. split; [exact H40 |]. split; [exact H1 |].
  split; [exact Hlt |].
  exact (scan_ignores_writes_below sample_swapped 40 1 Hwf H40 H1 Hlt).
Defined.

(** X11. After [Set i] on an in-range index, [FindLastOne] answers the
    larger of [i] and its earlier answer, and [FindFirstOne 0] answers
    [i] when nothing was set before and otherwise the smaller of [i]
    and its earlier answer. *)
Theorem scans_after_Set b i :
  wf b -> Word.is_uint64 i -> i < capacity b ->
  FindLastOne (fst (Set_ b i)) = (Z.max i (fst (FindLastOne b)), true)
  /\ FindFirstOne (fst (Set_ b i)) 0
     = (if snd (FindFirstOne b 0) then Z.min i (fst (FindFirstOne b 0))
        else i, true).
Proof.
  intros Hwf Hi Hin. pose proof Hwf as [_ Hcap].
  pose proof (Set_wf b i Hwf) as HwfS.
  assert (H0 : Word.is_uint64 0) by word_lia.
  assert (Hset : forall k, Word.is_uint64 k ->
                 Test (fst (Set_ b i)) k = (k =? i) || Test b k).
  { intros k Hk. now apply Test_Set. }
  split.
  - destruct (FindLastOne_answer _ HwfS)
      as [(m & -> & Hm & Hbm & Hmax) | (-> & Hnone)].
    2:{ specialize (Hnone i Hi). rewrite Hset, Z.eqb_refl in Hnone by assumption.
        discriminate. }
    rewrite capacity_Set in Hm.
    assert (Hmu : Word.is_uint64 m) by word_lia.
    rewrite Hset in Hbm by assumption.
    f_equal.
    destruct (FindLastOne_answer b Hwf)
      as [(l & -> & Hl & Hbl & Hlmax) | (-> & Hlnone)]; cbn [fst].
    + assert (Hlu : Word.is_uint64 l) by word_lia.
      assert (Hge_i : i <= m).
      { destruct (Z.le_gt_cases i m) as [| Hgt]; [assumption | exfalso].
        specialize (Hmax i Hi Hgt).
        rewrite Hset, Z.eqb_refl in Hmax by assumption. discriminate. }
      assert (Hge_l : l <= m).
      { destruct (Z.le_gt_cases l m) as [| Hgt]; [assumption | exfalso].
        specialize (Hmax l Hlu Hgt).
        rewrite Hset, Hbl, orb_true_r in Hmax by assumption. discriminate. }
      destruct (Z.eqb_spec m i) as [-> | Hne]; [lia |].
      cbn [orb] in Hbm.
      destruct (Z.le_gt_cases m l) as [| Hgt]; [lia | exfalso].
      rewrite Hlmax in Hbm by assumption. discriminate.
    + destruct (Z.eqb_spec m i) as [-> | Hne]; [lia | exfalso].
      cbn [orb] in Hbm. rewrite Hlnone in Hbm by assumption. discriminate.
  - destruct (FindFirstOne_answer _ 0 HwfS H0)
      as [(m & -> & Hm & Hbm & Hmin) | (-> & Hnone)].
    2:{ rewrite capacity_Set in Hnone. specialize (Hnone i ltac:(word_lia)).
        rewrite Hset, Z.eqb_refl in Hnone by assumption. discriminate. }
    rewrite capacity_Set in Hm.
    assert (Hmu : Word.is_uint64 m) by word_lia.
    rewrite Hset in Hbm by assumption.
    assert (Hle_i : m <= i).
    { destruct (Z.le_gt_cases m i) as [| Hgt]; [assumption | exfalso].
      specialize (Hmin i ltac:(word_lia)).
      rewrite Hset, Z.eqb_refl in Hmin by assumption. discriminate. }
    f_equal.
    destruct (FindFirstOne_answer b 0 Hwf H0)
      as [(f & -> & Hf & Hbf & Hfmin) | (-> & Hfnone)]; cbn [fst snd].
    + assert (Hfu : Word.is_uint64 f) by word_lia.
      assert (Hle_f : m <= f).
      { destruct (Z.le_gt_cases m f) as [| Hgt]; [assumption | exfalso].
        specialize (Hmin f ltac:(lia)).
        rewrite Hset, Hbf, orb_true_r in Hmin by assumption. discriminate. }
      destruct (Z.eqb_spec m i) as [-> | Hne]; [lia |].
      cbn [orb] in Hbm.
      destruct (Z.le_gt_cases f m) as [| Hgt]; [lia | exfalso].
      rewrite Hfmin in Hbm by lia. discriminate.
    + destruct (Z.eqb_spec m i) as [-> | Hne]; [reflexivity | exfalso].
      cbn [orb] in Hbm. rewrite Hfnone in Hbm by lia. discriminate.
Qed.

Lemma scans_after_Set_witness :
  wf sample_native /\ Word.is_uint64 100 /\ 100 < capacity sample_native
  /\ FindLastOne (fst (Set_ sample_native 100))
     = (Z.max 100 (fst (FindLastOne sample_native)), true)
  /\ FindFirstOne (fst (Set_ sample_native 100)) 0
     = (if snd (FindFirstOne sample_native 0)
        then Z.min 100 (fst (FindFirstOne sample_native 0))
        else 100, true).
Proof.
  assert (Hwf : wf sample_native) by concrete_wf.
  assert (Hi : Word.is_uint64 100) by concrete_uint.
  assert (Hc : 100 < capacity sample_native) by (vm_compute; reflexivity).
  split; [exact Hwf |]. split; [exact Hi |]. split; [exact Hc |].
  exact (scans_after_Set sample_native 100 Hwf Hi Hc).
Defined.

(** ** The swapped path against the native path *)

Lemma swap_native b : swap (native b) = false.
Proof. unfold native. now destruct b as [w [|]]. Qed.

Lemma snd_Set b i :
  snd (Set_ b i)
  = negb (len (vec b) <=? Word.to_int (Word.shr i log2WordSize)).
Proof.
  unfold Set_. cbv zeta.
  destruct (len (vec b) <=? _); [reflexivity | now destruct (swap b)].
Qed.

Lemma snd_Clear b i :
  snd (Clear b i)
  = negb (len (vec b) <=? Word.to_int (Word.shr i log2WordSize)).
Proof.
  unfold Clear. cbv zeta.
  destruct (len (vec b) <=? _); [reflexivity | now destruct (swap b)].
Qed.

(** X12. With the swap flag set, every operation does what the native
    code does on the buffer with each word byte-reversed: [Test] and
    the three scans answer the same, and [Set] and [Clear] report the
    same and write the byte-reversed image of the native write. *)
Theorem swapped_path_matches_native b i :
  wf b -> Word.is_uint64 i ->
  Test b i = Test (native b) i
  /\ native (fst (Set_ b i)) = fst (Set_ (native b) i)
  /\ snd (Set_ b i) = snd (Set_ (native b) i)
  /\ native (fst (Clear b i)) = fst (Clear (native b) i)
  /\ snd (Clear b i) = snd (Clear (native b) i)
  /\ FindFirstOne b i = FindFirstOne (native b) i
  /\ FindFirstZero b i = FindFirstZero (native b) i
  /\ FindLastOne b = FindLastOne (native b).
Proof.
  intros Hwf Hi. pose proof Hwf as [_ Hcap].
  pose proof (wf_native_vec b Hwf) as Hwfn.
  repeat apply conj.
  - symmetry. now apply Test_native_same.
  - apply BitVec_ext.
    + apply wf_native_vec. now apply Set_wf.
    + now apply Set_wf.
    + now rewrite (proj1 (shape_Set _ _)), !swap_native.
    + now rewrite (proj2 (shape_Set _ _)), !len_native, (proj2 (shape_Set _ _)).
    + rewrite capacity_native, capacity_Set. intros k Hk.
      rewrite Test_native_same, !Test_Set_any, capacity_native,
        Test_native_same by word_lia.
      reflexivity.
  - now rewrite !snd_Set, len_native.
  - apply BitVec_ext.
    + apply wf_native_vec. now apply Clear_wf.
    + now apply Clear_wf.
    + now rewrite (proj1 (shape_Clear _ _)), !swap_native.
    + now rewrite (proj2 (shape_Clear _ _)), !len_native,
        (proj2 (shape_Clear _ _)).
    + rewrite capacity_native, capacity_Clear. intros k Hk.
      rewrite Test_native_same, !Test_Clear_any, Test_native_same by word_lia.
      reflexivity.
  - now rewrite !snd_Clear, len_native.
  - now apply FindFirstOne_native.
  - now apply FindFirstZero_native.
  - now apply FindLastOne_native.
Qed.

Lemma swapped_path_matches_native_witness :
  wf sample_swapped /\ Word.is_uint64 66
  /\ Test sample_swapped 66 = Test (native sample_swapped) 66
  /\ native (fst (Set_ sample_swapped 66))
     = fst (Set_ (native sample_swapped) 66)
  /\ snd (Set_ sample_swapped 66) = snd (Set_ (native sample_swapped) 66)
  /\ native (fst (Clear sample_swapped 66))
     = fst (Clear (native sample_swapped) 66)
  /\ snd (Clear sample_swapped 66) = snd (Clear (native sample_swapped) 66)
  /\ FindFirstOne sample_swapped 66 = FindFirstOne (native sample_swapped) 66
  /\ FindFirstZero sample_swapped 66
     = FindFirstZero (native sample_swapped) 66
  /\ FindLastOne sample_swapped = FindLastOne (native sample_swapped).
Proof.
  assert (Hwf : wf sample_swapped) by concrete_wf.
  assert (Hi : Word.is_uint64 66) by concrete_uint.
  split; [exact Hwf |]. split; [exact Hi |].
  exact (swapped_path_matches_native sample_swapped 66 Hwf Hi).
Defined.

(** ** [swapUint64] *)

(** X13. [swapUint64] never leaves the 64-bit range and is its own
    inverse on 64-bit values. *)
Theorem swapUint64_round_trip n :
  Word.is_uint64 n ->
  Word.is_uint64 (swapUint64 n) /\ swapUint64 (swapUint64 n) = n.
Proof.
  intros Hn. split; [apply swapUint64_uint64 | now apply swapUint64_involutive].
Qed.

Lemma swapUint64_round_trip_witness :
  Word.is_uint64 0x0102030405060708
  /\ Word.is_uint64 (swapUint64 0x0102030405060708)
  /\ swapUint64 (swapUint64 0x0102030405060708) = 0x0102030405060708.
Proof.
  assert (Hn : Word.is_uint64 0x0102030405060708) by concrete_uint.
  split; [exact Hn |].
  exact (swapUint64_round_trip 0x0102030405060708 Hn).
Defined.

(** X14. [swapUint64] reverses the order of the eight bytes: byte [k]
    of the result is byte [7 - k] of the argument. *)
Theorem swapUint64_reverses_bytes n k :
  0 <= k < 8 ->
  Z.land (Word.shr (swapUint64 n) (8 * k)) 0xFF
  = Z.land (Word.shr n (8 * (7 - k))) 0xFF.
Proof.
  intros Hk. unfold Word.shr. apply Z.bits_inj'. intros r Hr.
  rewrite !Z.land_spec. change 0xFF with (Z.ones 8).
  rewrite Z.testbit_ones_nonneg by lia.
  destruct (Z.ltb_spec r 8) as [Hlt | Hge];
    [rewrite !andb_true_r | now rewrite !andb_false_r].
  rewrite !Z.shiftr_spec by lia.
  rewrite testbit_swapUint64 by lia. f_equal.
  unfold swapped_bit. Z.div_mod_to_equations. lia.
Qed.

Lemma swapUint64_reverses_bytes_witness :
  0 <= 2 < 8
  /\ Z.land (Word.shr (swapUint64 0x0102030405060708) (8 * 2)) 0xFF
     = Z.land (Word.shr 0x0102030405060708 (8 * (7 - 2))) 0xFF.
Proof.
  assert (Hk : 0 <= 2 < 8) by lia.
  split; [exact Hk |].
  exact (swapUint64_reverses_bytes 0x0102030405060708 2 Hk).
Defined.

(** ** Where the bits of a constructed vector live in the buffer *)

Lemma words_of_Big b :
  words_of BigEndian b = swapUint64 <$> words_of LittleEndian b.
Proof.
  assert (H : forall n b, (length b <= n)%nat ->
            words_of BigEndian b = swapUint64 <$> words_of LittleEndian b).
  { clear b. induction n as [| n IH]; intros b Hb.
    - destruct b; [reflexivity | cbn in Hb; lia].
    - do 8 (destruct b as [| ? b]; [reflexivity |]).
      cbn [words_of fmap list_fmap]. cbn [length] in Hb.
      rewrite IH by lia. now rewrite swapUint64_word_of_bytes. }
  now apply (H (length b)).
Qed.

Lemma byte_at_outside b n :
  Z.of_nat (length b) <= n -> byte_at b n = 0.
Proof.
  intros H. unfold byte_at.
  rewrite (proj2 (lookup_ge_None b (Z.to_nat n))); [reflexivity | lia].
Qed.

Lemma byte_at_cons a b n : 0 <= n -> byte_at (a :: b) (n + 1) = byte_at b n.
Proof.
  intros Hn. unfold byte_at.
  replace (Z.to_nat (n + 1)) with (S (Z.to_nat n)) by lia. reflexivity.
Qed.

Lemma byte_at_skip8 a0 a1 a2 a3 a4 a5 a6 a7 b n :
  0 <= n ->
  byte_at (a0 :: a1 :: a2 :: a3 :: a4 :: a5 :: a6 :: a7 :: b) (n + 8)
  = byte_at b n.
Proof.
  intros Hn.
  replace (n + 8) with (n + 1 + 1 + 1 + 1 + 1 + 1 + 1 + 1) by lia.
  now rewrite !byte_at_cons by lia.
Qed.

Lemma testbit_word_of_bytes a0 a1 a2 a3 a4 a5 a6 a7 rest r :
  0 <= r < 64 ->
  Z.testbit (word_of_bytes a0 a1 a2 a3 a4 a5 a6 a7) r
  = Z.testbit
      (byte_at (a0 :: a1 :: a2 :: a3 :: a4 :: a5 :: a6 :: a7 :: rest) (r / 8))
      (r mod 8).
Proof.
  intros Hr. unfold word_of_bytes.
  assert (Hm : r mod 8 = r - 8 * (r / 8)) by (Z.div_mod_to_equations; lia).
  rewrite Hm. clear Hm.
  assert (Hm : 0 <= r - 8 * (r / 8) < 8) by (Z.div_mod_to_equations; lia).
  assert (Hq : 0 <= r / 8 < 8) by (Z.div_mod_to_equations; lia).
  generalize dependent (r / 8). intros q Hm Hq.
  rewrite !Z.lor_spec, !Z.shiftl_spec by lia.
  assert (Hc : q = 0 \/ q = 1 \/ q = 2 \/ q = 3 \/
               q = 4 \/ q = 5 \/ q = 6 \/ q = 7) by lia.
  destruct Hc as [-> | [-> | [-> | [-> | [-> | [-> | [-> | ->]]]]]]];
    cbn [byte_at Z.to_nat Pos.to_nat Pos.iter_op Init.Nat.add
         lookup list_lookup];
    drop_lanes; cbn [orb]; rewrite ?orb_false_r; f_equal; lia.
Qed.

Lemma testbit_words_of_little b :
  forall q r, 0 <= q -> 0 <= r < 64 ->
  Z.testbit (index (words_of LittleEndian b) q) r
  = (8 * q + 8 <=? Z.of_nat (length b))
    && Z.testbit (byte_at b (8 * q + r / 8)) (r mod 8).
Proof.
  assert (H : forall n b, (length b <= n)%nat ->
            forall q r, 0 <= q -> 0 <= r < 64 ->
            Z.testbit (index (words_of LittleEndian b) q) r
            = (8 * q + 8 <=? Z.of_nat (length b))
              && Z.testbit (byte_at b (8 * q + r / 8)) (r mod 8)).
  { clear b. induction n as [| n IH]; intros b Hb q r Hq Hr.
    - destruct b; [| cbn in Hb; lia].
      cbn [words_of length]. rewrite index_outside by (unfold len; cbn; lia).
      rewrite Z.bits_0. symmetry. apply andb_false_iff. left.
      apply Z.leb_gt. lia.
    - do 8 (destruct b as [| ? b];
            [ cbn [words_of length];
              rewrite index_outside by (unfold len; cbn; lia);
              rewrite Z.bits_0; symmetry; apply andb_false_iff; left;
              apply Z.leb_gt; lia |]).
      cbn [words_of]. cbn [length] in Hb.
      destruct (Z.eq_dec q 0) as [-> | Hnz].
      + change (index (?w :: ?ws) 0) with w.
        rewrite (testbit_word_of_bytes _ _ _ _ _ _ _ _ b) by assumption.
        cbn [length]. rewrite (proj2 (Z.leb_le _ _)) by lia. reflexivity.
      + assert (Hidx : forall w ws, index (w :: ws) q = index ws (q - 1)).
        { intros w ws. unfold index.
          replace (Z.to_nat q) with (S (Z.to_nat (q - 1))) by lia.
          reflexivity. }
        rewrite Hidx, (IH b) by lia.
        replace (8 * q + r / 8) with (8 * (q - 1) + r / 8 + 8) by lia.
        rewrite byte_at_skip8 by (Z.div_mod_to_equations; lia).
        f_equal. cbn [length].
        destruct (Z.leb_spec (8 * (q - 1) + 8) (Z.of_nat (length b)));
          symmetry; [apply Z.leb_le | apply Z.leb_gt]; lia. }
  intros q r. now apply (H (length b)).
Qed.

Lemma New_Ok_inv host b endian v :
  New host b endian = Ok v ->
  Z.of_nat (length b) mod 8 = 0
  /\ (endian = LittleEndian \/ endian = BigEndian)
  /\ (host = LittleEndian \/ host = BigEndian)
  /\ v = {| vec := words_of host b;
            swap := negb (Endianness_eqb endian host) |}.
Proof.
  unfold New.
  destruct (Z.eqb_spec (Z.of_nat (length b) mod 8) 0) as [Hlen |];
    cbn [negb]; [| discriminate].
  destruct (Endianness_eqb_spec endian LittleEndian),
           (Endianness_eqb_spec endian BigEndian),
           (Endianness_eqb_spec host LittleEndian),
           (Endianness_eqb_spec host BigEndian);
    cbn [negb andb]; try discriminate;
    intros E; injection E as <-; subst; auto.
Qed.

(** The logical word of a constructed vector depends on the bytes and
    on the declared order only. *)
Lemma logical_New host b endian v q :
  New host b endian = Ok v ->
  logical v q
  = match endian with
    | BigEndian => swapUint64 (index (words_of LittleEndian b) q)
    | _ => index (words_of LittleEndian b) q
    end.
Proof.
  intros HN. apply New_Ok_inv in HN as (_ & He & Hh & ->).
  pose proof (index_in_range _ q (words_of_uint64 LittleEndian b)) as Hx.
  unfold logical. cbn [vec swap].
  destruct He as [-> | ->], Hh as [-> | ->]; cbn [Endianness_eqb negb];
    rewrite ?words_of_Big, ?index_fmap_swap; try reflexivity.
  now apply swapUint64_involutive.
Qed.

(** X15. In a vector declared little-endian, bit [i] is bit [i mod 8]
    of byte [i / 8] of the buffer, on a little-endian and on a
    big-endian host alike. *)
Theorem little_endian_layout host b v i :
  New host b LittleEndian = Ok v -> Word.is_uint64 i ->
  Test v i = Z.testbit (byte_at b (i / 8)) (i mod 8).
Proof.
  intros HN Hi. pose proof (New_Ok_inv _ _ _ _ HN) as (Hlen & _).
  rewrite Test_spec, (logical_New _ _ _ _ _ HN) by assumption.
  pose proof (bit_offset_range i) as Hoff.
  rewrite testbit_words_of_little
    by (try assumption; unfold Word.is_uint64 in Hi;
        Z.div_mod_to_equations; lia).
  replace (8 * (i / 64) + i mod 64 / 8) with (i / 8)
    by (Z.div_mod_to_equations; lia).
  replace (i mod 64 mod 8) with (i mod 8) by (Z.div_mod_to_equations; lia).
  destruct (Z.leb_spec (8 * (i / 64) + 8) (Z.of_nat (length b)))
    as [| Hout]; [reflexivity |].
  rewrite byte_at_outside; [now rewrite Z.bits_0 |].
  revert Hout Hlen. generalize (Z.of_nat (length b)). intros L Hout Hlen.
  Z.div_mod_to_equations. lia.
Qed.

Lemma little_endian_layout_witness :
  New BigEndian sample_buffer LittleEndian
    = Ok {| vec := words_of BigEndian sample_buffer; swap := true |}
  /\ Word.is_uint64 9
  /\ Test {| vec := words_of BigEndian sample_buffer; swap := true |} 9
     = Z.testbit (byte_at sample_buffer (9 / 8)) (9 mod 8).
Proof.
  assert (HN : New BigEndian sample_buffer LittleEndian
               = Ok {| vec := words_of BigEndian sample_buffer;
                       swap := true |}) by reflexivity.
  assert (Hi : Word.is_uint64 9) by concrete_uint.
  split; [exact HN |]. split; [exact Hi |].
  exact (little_endian_layout BigEndian sample_buffer _ 9 HN Hi).
Defined.

(** X16. In a vector declared big-endian, bit [i] is bit [i mod 8] of
    the byte that mirrors byte [i mod 64 / 8] inside its 8-byte word,
    that is byte [8 * (i / 64) + 7 - i mod 64 / 8] of the buffer, on
    either host. *)
Theorem big_endian_layout host b v i :
  New host b BigEndian = Ok v -> Word.is_uint64 i ->
  Test v i
  = Z.testbit (byte_at b (8 * (i / 64) + (7 - i mod 64 / 8))) (i mod 8).
Proof.
  intros HN Hi. pose proof (New_Ok_inv _ _ _ _ HN) as (Hlen & _).
  rewrite Test_spec, (logical_New _ _ _ _ _ HN) by assumption.
  pose proof (bit_offset_range i) as Hoff.
  rewrite testbit_swapUint64 by assumption.
  pose proof (swapped_bit_range _ Hoff) as Hsb.
  rewrite testbit_words_of_little
    by (try assumption; unfold Word.is_uint64 in Hi;
        Z.div_mod_to_equations; lia).
  replace (swapped_bit (i mod 64) / 8) with (7 - i mod 64 / 8)
    by (unfold swapped_bit; Z.div_mod_to_equations; lia).
  replace (swapped_bit (i mod 64) mod 8) with (i mod 8)
    by (unfold swapped_bit; Z.div_mod_to_equations; lia).
  destruct (Z.leb_spec (8 * (i / 64) + 8) (Z.of_nat (length b)))
    as [| Hout]; [reflexivity |].
  rewrite byte_at_outside; [now rewrite Z.bits_0 |].
  revert Hout Hlen. generalize (Z.of_nat (length b)). intros L Hout Hlen.
  Z.div_mod_to_equations. lia.
Qed.

Lemma big_endian_layout_witness :
  New LittleEndian sample_buffer BigEndian
    = Ok {| vec := words_of LittleEndian sample_buffer; swap := true |}
  /\ Word.is_uint64 9
  /\ Test {| vec := words_of LittleEndian sample_buffer; swap := true |} 9
     = Z.testbit (byte_at sample_buffer (8 * (9 / 64) + (7 - 9 mod 64 / 8)))
                 (9 mod 8).
Proof.
  assert (HN : New LittleEndian sample_buffer BigEndian
               = Ok {| vec := words_of LittleEndian sample_buffer;
                       swap := true |}) by reflexivity.
  assert (Hi : Word.is_uint64 9) by concrete_uint.
  split; [exact HN |]. split; [exact Hi |].
  exact (big_endian_layout LittleEndian sample_buffer _ 9 HN Hi).
Defined.

(** X17. What a constructed vector answers does not depend on the
    host: over the same buffer and declared endianness, construction on
    a little-endian and on a big-endian host gives the same word count
    and the same [Test] answers. *)
Theorem host_independence h1 h2 b endian v1 v2 :
  New h1 b endian = Ok v1 -> New h2 b endian = Ok v2 ->
  len (vec v1) = len (vec v2)
  /\ forall i, Word.is_uint64 i -> Test v1 i = Test v2 i.
Proof.
  intros H1 H2. split.
  - apply New_Ok_inv in H1 as (_ & _ & _ & ->).
    apply New_Ok_inv in H2 as (_ & _ & _ & ->).
    cbn [vec]. now rewrite !len_words_of.
  - intros i Hi. rewrite !Test_spec by assumption.
    now rewrite (logical_New _ _ _ _ _ H1), (logical_New _ _ _ _ _ H2).
Qed.

Lemma host_independence_witness :
  New LittleEndian sample_buffer BigEndian
    = Ok {| vec := words_of LittleEndian sample_buffer; swap := true |}
  /\ New BigEndian sample_buffer BigEndian
     = Ok {| vec := words_of BigEndian sample_buffer; swap := false |}
  /\ len (words_of LittleEndian sample_buffer)
     = len (words_of BigEndian sample_buffer)
  /\ forall i, Word.is_uint64 i ->
       Test {| vec := words_of LittleEndian sample_buffer; swap := true |} i
       = Test {| vec := words_of BigEndian sample_buffer; swap := false |} i.
Proof.
  assert (H1 : New LittleEndian sample_buffer BigEndian
               = Ok {| vec := words_of LittleEndian sample_buffer;
                       swap := true |}) by reflexivity.
  assert (H2 : New BigEndian sample_buffer BigEndian
               = Ok {| vec := words_of BigEndian sample_buffer;
                       swap := false |}) by reflexivity.
  split; [exact H1 |]. split; [exact H2 |].
  exact (host_independence LittleEndian BigEndian sample_buffer BigEndian
           _ _ H1 H2).
Defined.

(** ** The invariant of the words *)

Lemma call_wf op b : wf b -> wf (fst (call op b)).
Proof.
  intros Hwf. destruct op as [i | i | i | i | i |]; cbn [call fst];
    try assumption.
  - pose proof (Set_wf b i Hwf). now destruct (Set_ b i).
  - pose proof (Clear_wf b i Hwf). now destruct (Clear b i).
Qed.

(** X18. Construction over a buffer whose bits can all be indexed by a
    [uint] yields a well-formed vector with 8 bits of capacity per
    byte of the buffer. *)
Theorem New_is_well_formed host b endian v :
  New host b endian = Ok v -> 8 * Z.of_nat (length b) <= Word.modulus ->
  wf v /\ capacity v = 8 * Z.of_nat (length b).
Proof.
  intros HN Hsize. apply New_Ok_inv in HN as (Hlen & _ & _ & ->).
  assert (Hcap : capacity {| vec := words_of host b;
                             swap := negb (Endianness_eqb endian host) |}
                 = 8 * Z.of_nat (length b)).
  { unfold capacity, wordSize. cbn [vec]. rewrite len_words_of.
    revert Hlen. generalize (Z.of_nat (length b)). intros L Hlen.
    Z.div_mod_to_equations. lia. }
  split; [| exact Hcap]. split; cbn [vec].
  - apply words_of_uint64.
  - unfold capacity in Hcap. cbn [vec] in Hcap. now rewrite Hcap.
Qed.

Lemma New_is_well_formed_witness :
  New LittleEndian sample_buffer BigEndian
    = Ok {| vec := words_of LittleEndian sample_buffer; swap := true |}
  /\ 8 * Z.of_nat (length sample_buffer) <= Word.modulus
  /\ wf {| vec := words_of LittleEndian sample_buffer; swap := true |}
  /\ capacity {| vec := words_of LittleEndian sample_buffer; swap := true |}
     = 8 * Z.of_nat (length sample_buffer).
Proof.
  assert (HN : New LittleEndian sample_buffer BigEndian
               = Ok {| vec := words_of LittleEndian sample_buffer;
                       swap := true |}) by reflexivity.
  assert (Hs : 8 * Z.of_nat (length sample_buffer) <= Word.modulus)
    by (vm_compute; discriminate).
  split; [exact HN |]. split; [exact Hs |].
  exact (New_is_well_formed LittleEndian sample_buffer BigEndian _ HN Hs).
Defined.

(** X19. No sequence of calls takes a well-formed vector out of
    well-formedness: after any number of [Set] and [Clear] calls, on
    either path, every word is still a 64-bit value. *)
Theorem calls_keep_well_formed ops b : wf b -> wf (run ops b).
Proof.
  revert b. induction ops as [| op ops IH]; intros b Hwf; cbn [run].
  - assumption.
  - apply IH. now apply call_wf.
Qed.

Lemma calls_keep_well_formed_witness :
  wf sample_swapped
  /\ wf (run [OpSet 3; OpClear 64; OpTest 5; OpSet 127; OpFindLastOne]
             sample_swapped).
Proof.
  assert (Hwf : wf sample_swapped) by concrete_wf.
  split; [exact Hwf |].
  exact (calls_keep_well_formed _ sample_swapped Hwf).
Defined.

(** X20. A vector without words answers every request negatively:
    [Test] is false, [Set] and [Clear] report failure and change
    nothing, and the three scans find nothing. *)
Theorem zero_capacity_vector b i :
  vec b = [] -> Word.is_uint64 i ->
  Test b i = false /\ Set_ b i = (b, false) /\ Clear b i = (b, false)
  /\ FindFirstOne b i = (0, false) /\ FindFirstZero b i = (0, false)
  /\ FindLastOne b = (0, false).
Proof.
  intros Hv Hi.
  assert (Hq : 0 <= i / 64).
  { unfold Word.is_uint64 in Hi. Z.div_mod_to_equations. lia. }
  unfold Test, Set_, Clear, FindFirstOne, FindFirstZero, FindLastOne.
  cbv zeta. rewrite Hv, word_index_int by assumption.
  change (len []) with 0.
  destruct (Z.leb_spec 0 (i / 64)); [| lia].
  repeat apply conj; try reflexivity. now destruct (swap b).
Qed.

Lemma zero_capacity_vector_witness :
  vec {| vec := []; swap := true |} = [] /\ Word.is_uint64 0
  /\ Test {| vec := []; swap := true |} 0 = false
  /\ Set_ {| vec := []; swap := true |} 0
     = ({| vec := []; swap := true |}, false)
  /\ Clear {| vec := []; swap := true |} 0
     = ({| vec := []; swap := true |}, false)
  /\ FindFirstOne {| vec := []; swap := true |} 0 = (0, false)
  /\ FindFirstZero {| vec := []; swap := true |} 0 = (0, false)
  /\ FindLastOne {| vec := []; swap := true |} = (0, false).
Proof.
  assert (Hv : vec {| vec := []; swap := true |} = []) by reflexivity.
  assert (Hi : Word.is_uint64 0) by concrete_uint.
  split; [exact Hv |]. split; [exact Hi |].
  exact (zero_capacity_vector {| vec := []; swap := true |} 0 Hv Hi).
Defined.

(** ** [FindFirstZero] as [FindFirstOne] on the complement *)

Lemma wf_complement b : wf b -> wf (complement b).
Proof.
  intros [Hw Hcap]. split; cbn [complement vec].
  - apply Forall_fmap. eapply Forall_impl; [exact Hw |].
    intros x Hx. now apply not_uint64.
  - unfold len in *. now rewrite length_fmap.
Qed.

Lemma capacity_complement b : capacity (complement b) = capacity b.
Proof. unfold capacity, len. cbn [complement vec]. now rewrite length_fmap. Qed.

Lemma Test_complement b k :
  Word.is_uint64 k -> k < capacity b ->
  Test (complement b) k = negb (Test b k).
Proof.
  intros Hk Hin. destruct (in_capacity b k Hk Hin) as [Hq0 Hq].
  pose proof (bit_offset_range k) as Hoff.
  rewrite !Test_spec by assumption. unfold logical. cbn [complement vec swap].
  assert (E : index (Word.not <$> vec b) (k / 64)
              = Word.not (index (vec b) (k / 64))).
  { unfold index. rewrite list_lookup_fmap.
    destruct (vec b !! Z.to_nat (k / 64)) eqn:El; [reflexivity |].
    apply lookup_ge_None in El. unfold len in Hq. lia. }
  rewrite E. destruct (swap b).
  - rewrite !testbit_swapUint64 by assumption.
    apply testbit_not_low. now apply swapped_bit_range.
  - now apply testbit_not_low.
Qed.

(** X21. [FindFirstZero] answers exactly what [FindFirstOne] answers on
    the vector over the complemented buffer, at the end of the vector
    as everywhere else. *)
Theorem first_zero_is_first_one_of_complement b from :
  wf b -> Word.is_uint64 from ->
  FindFirstZero b from = FindFirstOne (complement b) from.
Proof.
  intros Hwf Hfrom. pose proof Hwf as [_ Hcap].
  pose proof (wf_complement b Hwf) as Hwfc.
  apply (first_answer_unique true (complement b) (complement b) from);
    [| now apply FindFirstOne_answer | reflexivity | reflexivity].
  unfold first_answer. rewrite capacity_complement.
  destruct (FindFirstZero_answer b from Hwf Hfrom)
    as [(m & -> & Hm & Hbm & Hmin) | (-> & Hnone)]; [left | right].
  - exists m. split; [reflexivity |]. split; [assumption |]. split.
    + rewrite Test_complement by word_lia. now rewrite Hbm.
    + intros k Hk. rewrite Test_complement by word_lia.
      now rewrite Hmin by assumption.
  - split; [reflexivity |]. intros k Hk.
    rewrite Test_complement by word_lia. now rewrite Hnone by assumption.
Qed.

Lemma first_zero_is_first_one_of_complement_witness :
  wf sample_full /\ Word.is_uint64 0
  /\ FindFirstZero sample_full 0 = FindFirstOne (complement sample_full) 0.
Proof.
  assert (Hwf : wf sample_full)
    by (unfold sample_full, allBits; concrete_wf).
  assert (Hi : Word.is_uint64 0) by concrete_uint.
  split; [exact Hwf |]. split; [exact Hi |].
  exact (first_zero_is_first_one_of_complement sample_full 0 Hwf Hi).
Defined.

(** ** More on writes *)

(** X22. [Set] and [Clear] report success exactly for the indices
    below the capacity. *)
Theorem write_succeeds_iff_in_range b i :
  Word.is_uint64 i ->
  (snd (Set_ b i) = true <-> i < capacity b)
  /\ (snd (Clear b i) = true <-> i < capacity b).
Proof.
  intros Hi. rewrite snd_Set, snd_Clear, word_index_int by assumption.
  assert (E : i / 64 < len (vec b) <-> i < capacity b).
  { unfold capacity, wordSize. unfold Word.is_uint64 in Hi.
    split; intros H; Z.div_mod_to_equations; lia. }
  rewrite <- E.
  destruct (Z.leb_spec (len (vec b)) (i / 64)); cbn [negb];
    split; split; intros; (lia || reflexivity || discriminate).
Qed.

Lemma write_succeeds_iff_in_range_witness :
  Word.is_uint64 127
  /\ (snd (Set_ sample_swapped 127) = true <-> 127 < capacity sample_swapped)
  /\ (snd (Clear sample_swapped 127) = true
      <-> 127 < capacity sample_swapped).
Proof.
  assert (Hi : Word.is_uint64 127) by concrete_uint.
  split; [exact Hi |].
  exact (write_succeeds_iff_in_range sample_swapped 127 Hi).
Defined.

(** X23. [Test] sees every stored bit: two well-formed vectors with
    the same swap flag and word count on which [Test] agrees below the
    capacity hold the same buffer. *)
Theorem buffer_determined_by_tests b1 b2 :
  wf b1 -> wf b2 -> swap b1 = swap b2 -> len (vec b1) = len (vec b2) ->
  (forall k, 0 <= k < capacity b1 -> Test b1 k = Test b2 k) ->
  vec b1 = vec b2.
Proof.
  intros Hwf1 Hwf2 Hs Hl Hsame.
  now rewrite (BitVec_ext b1 b2 Hwf1 Hwf2 Hs Hl Hsame).
Qed.

Lemma buffer_determined_by_tests_witness :
  wf sample_swapped /\ wf (native (native sample_swapped))
  /\ swap (native sample_swapped) = swap (native (native sample_swapped))
  /\ len (vec (native sample_swapped))
     = len (vec (native (native sample_swapped)))
  /\ vec (native sample_swapped) = vec (native (native sample_swapped)).
Proof.
  assert (Hwf : wf sample_swapped) by concrete_wf.
  assert (Hwf1 : wf (native sample_swapped))
    by (apply wf_native_vec; exact Hwf).
  assert (Hwf2 : wf (native (native sample_swapped)))
    by (apply wf_native_vec; exact Hwf1).
  assert (Hs : swap (native sample_swapped)
               = swap (native (native sample_swapped))) by reflexivity.
  assert (Hl : len (vec (native sample_swapped))
               = len (vec (native (native sample_swapped)))) by reflexivity.
  split; [exact Hwf |]. split; [exact Hwf2 |]. split; [exact Hs |].
  split; [exact Hl |].
  refine (buffer_determined_by_tests (native sample_swapped)
            (native (native sample_swapped)) Hwf1 Hwf2 Hs Hl _).
  intros k Hk. symmetry. apply Test_native_same.
  revert Hk. unfold Word.is_uint64, Word.modulus.
  change (capacity (native sample_swapped)) with 128. lia.
Defined.

(** X24. A write past the answer of a forward scan, or before the
    answer of the backward scan, leaves that answer as it was. *)
Theorem scan_answer_ignores_writes_beyond b from j :
  wf b -> Word.is_uint64 from -> Word.is_uint64 j ->
  (forall m, FindFirstOne b from = (m, true) -> m < j ->
     FindFirstOne (fst (Set_ b j)) from = (m, true)
     /\ FindFirstOne (fst (Clear b j)) from = (m, true))
  /\ (forall m, FindFirstZero b from = (m, true) -> m < j ->
        FindFirstZero (fst (Set_ b j)) from = (m, true)
        /\ FindFirstZero (fst (Clear b j)) from = (m, true))
  /\ (forall m, FindLastOne b = (m, true) -> j < m ->
        FindLastOne (fst (Set_ b j)) = (m, true)
        /\ FindLastOne (fst (Clear b j)) = (m, true)).
Proof.
  intros Hwf Hfrom Hj. pose proof Hwf as [_ Hcap].
  pose proof (Set_wf b j Hwf) as HwfS.
  pose proof (Clear_wf b j Hwf) as HwfC.
  assert (Hfwd : forall x b' m,
            wf b' -> capacity b' = capacity b ->
            (forall k, Word.is_uint64 k -> k <> j -> Test b' k = Test b k) ->
            first_answer x b from (m, true) -> m < j ->
            forall r, first_answer x b' from r -> r = (m, true)).
  { intros x b' m Hwf' Hc' Hframe
           [(m0 & E & Hm & Hb & Hmin) | (E & _)] Hlt r Hr; [| discriminate].
    injection E as <-.
    destruct Hr as [(m' & -> & Hm' & Hb' & Hmin') | (-> & Hnone)].
    - f_equal. destruct (Z.lt_trichotomy m' m) as [H | [H | H]];
        [| assumption |]; exfalso.
      + rewrite Hframe, Hmin in Hb' by (word_lia || lia). now destruct x.
      + specialize (Hmin' m ltac:(lia)).
        rewrite Hframe, Hb in Hmin' by (word_lia || lia). now destruct x.
    - exfalso. rewrite Hc' in Hnone. specialize (Hnone m ltac:(lia)).
      rewrite Hframe, Hb in Hnone by (word_lia || lia). now destruct x. }
  assert (HS : forall k, Word.is_uint64 k -> k <> j ->
                Test (fst (Set_ b j)) k = Test b k).
  { intros k Hk Hne. rewrite Test_Set_any by assumption. split_tests. }
  assert (HC : forall k, Word.is_uint64 k -> k <> j ->
                Test (fst (Clear b j)) k = Test b k).
  { intros k Hk Hne. rewrite Test_Clear_any by assumption. split_tests. }
  repeat apply conj.
  - intros m E Hlt.
    pose proof (FindFirstOne_answer b from Hwf Hfrom) as Ha. rewrite E in Ha.
    split.
    + apply (Hfwd true _ m HwfS (capacity_Set b j) HS Ha Hlt).
      now apply FindFirstOne_answer.
    + apply (Hfwd true _ m HwfC (capacity_Clear b j) HC Ha Hlt).
      now apply FindFirstOne_answer.
  - intros m E Hlt.
    pose proof (FindFirstZero_answer b from Hwf Hfrom) as Ha. rewrite E in Ha.
    split.
    + apply (Hfwd false _ m HwfS (capacity_Set b j) HS Ha Hlt).
      now apply FindFirstZero_answer.
    + apply (Hfwd false _ m HwfC (capacity_Clear b j) HC Ha Hlt).
      now apply FindFirstZero_answer.
  - intros m E Hlt.
    destruct (FindLastOne_answer b Hwf)
      as [(m0 & E0 & Hm & Hb & Hmax) | (E0 & _)];
      rewrite E in E0; [| discriminate].
    injection E0 as <-.
    assert (Hmu : Word.is_uint64 m) by word_lia.
    assert (Hback : forall b', wf b' -> capacity b' = capacity b ->
              (forall k, Word.is_uint64 k -> k <> j -> Test b' k = Test b k) ->
              FindLastOne b' = (m, true)).
    { intros b' Hwf' Hc' Hframe.
      destruct (FindLastOne_answer b' Hwf')
        as [(m' & -> & Hm' & Hb' & Hmax') | (-> & Hnone)].
      - rewrite Hc' in Hm'. f_equal.
        destruct (Z.lt_trichotomy m' m) as [H | [H | H]];
          [| assumption |]; exfalso.
        + specialize (Hmax' m Hmu H).
          rewrite Hframe, Hb in Hmax' by (assumption || lia). discriminate.
        + rewrite Hframe, Hmax in Hb' by (word_lia || lia). discriminate.
      - exfalso. specialize (Hnone m Hmu).
        rewrite Hframe, Hb in Hnone by (assumption || lia). discriminate. }
    split; [apply (Hback _ HwfS (capacity_Set b j) HS)
           | apply (Hback _ HwfC (capacity_Clear b j) HC)].
Qed.

Lemma scan_answer_ignores_writes_beyond_witness :
  wf sample_swapped /\ Word.is_uint64 0 /\ Word.is_uint64 30
  /\ (forall m, FindFirstOne sample_swapped 0 = (m, true) -> m < 30 ->
        FindFirstOne (fst (Set_ sample_swapped 30)) 0 = (m, true)
        /\ FindFirstOne (fst (Clear sample_swapped 30)) 0 = (m, true))
  /\ (forall m, FindFirstZero sample_swapped 0 = (m, true) -> m < 30 ->
        FindFirstZero (fst (Set_ sample_swapped 30)) 0 = (m, true)
        /\ FindFirstZero (fst (Clear sample_swapped 30)) 0 = (m, true))
  /\ (forall m, FindLastOne sample_swapped = (m, true) -> 30 < m ->
        FindLastOne (fst (Set_ sample_swapped 30)) = (m, true)
        /\ FindLastOne (fst (Clear sample_swapped 30)) = (m, true)).
Proof.
  assert (Hwf : wf sample_swapped) by concrete_wf.
  assert (H0 : Word.is_uint64 0) by concrete_uint.
  assert (H30 : Word.is_uint64 30) by concrete_uint.
  split; [exact Hwf |]. split; [exact H0 |]. split; [exact H30 |].
  exact (scan_answer_ignores_writes_beyond sample_swapped 0 30 Hwf H0 H30).
Defined.
